(** * Verification of the save-config HTTP handler (server.py)

    The program is one request handler, [Handler.do_POST], on top of Python's
    [http.server], [json] and file I/O.  The development embeds

    - the Python values the handler manipulates ([str] as a list of code
      points, [bytes] as a Rocq [string], [int] as [Z], [float] as an IEEE
      binary64 value, JSON documents as [pyval]);
    - the library routines the handler calls, following CPython's behaviour:
      [bytes.decode('utf-8')], [json.loads], [json.dump(.., indent=2)],
      [json.dumps], [int(str)], [open(.., 'w')];
    - the handler itself, statement by statement, as a function from a request
      and a file system to an outcome and a file system;
    - the script that starts the server, as the loop of [serve_forever] over
      the requests that come in.

    Limits of the model, stated once: the interpreter's recursion limit, the
    limit on the number of digits of an [int] literal, I/O failures after a
    successful [open], and the access log written by the base class are not
    modelled. *)

From Stdlib Require Import ZArith NArith List String Ascii Bool Lia.
From stdpp Require Import base option gmap strings.
Import ListNotations.

Local Open Scope Z_scope.
#[local] Set Warnings "-register-all".

(** ** Text: code points and bytes *)

(** A Python [str] is a sequence of code points; [bytes] and ASCII text are
    Rocq strings. *)
Definition pystr := list Z.

Definition code (a : ascii) : Z := Z.of_N (N_of_ascii a).

Definition codes (s : string) : pystr := List.map code (list_ascii_of_string s).

Definition byte_of (c : Z) : ascii := ascii_of_N (Z.to_N c).

(** [str.encode('ascii')]-like rendering of text that is known to be ASCII. *)
Definition bytes_of (s : pystr) : string := string_of_list_ascii (List.map byte_of s).

Definition dquote : Z := 34.
Definition backslash : Z := 92.
Definition newline : Z := 10.

Definition is_digit (c : Z) : bool := (48 <=? c) && (c <=? 57).

(** ** Decimal numerals *)

(** Value of a run of decimal digits, most significant first. *)
Definition digits_val (ds : pystr) : Z :=
  fold_left (fun acc d => 10 * acc + (d - 48)) ds 0.

Fixpoint digits_fuel (fuel : nat) (n : Z) (acc : pystr) : pystr :=
  match fuel with
  | O => acc
  | S fuel' =>
      let acc' := (48 + n mod 10) :: acc in
      if n <? 10 then acc' else digits_fuel fuel' (n / 10) acc'
  end.

(** Decimal digits of a natural number, without leading zeros. *)
Definition nat_digits (n : Z) : pystr :=
  digits_fuel (S (Z.to_nat (Z.log2 n))) n [].

(** [int.__repr__]. *)
Definition int_repr (z : Z) : pystr :=
  if z <? 0 then 45 :: nat_digits (- z) else nat_digits z.

(** ** Python floats: IEEE 754 binary64 *)

Module PyFloat.

(** A finite value is [(-1)^neg * m * 2^e]. *)
Inductive t : Type :=
| Nan
| Inf (neg : bool)
| Finite (neg : bool) (m : Z) (e : Z).

Definition emin : Z := -1074.
Definition emax : Z := 971.

(** The representation is canonical: 53 bits of mantissa, normalised unless
    the exponent is the smallest one. *)
Definition canonical (f : t) : bool :=
  match f with
  | Finite _ m e =>
      (0 <=? m) && (m <? 2 ^ 53) && (emin <=? e) && (e <=? emax)
      && ((2 ^ 52 <=? m) || (e =? emin))
  | _ => true
  end.

(** [a / b >= 2^l], for positive [a] and [b]. *)
Definition ratio_ge_pow2 (a b l : Z) : bool :=
  b * 2 ^ Z.max 0 l <=? a * 2 ^ Z.max 0 (- l).

(** [floor (log2 (a / b))]. *)
Definition ratio_log2 (a b : Z) : Z :=
  let l := Z.log2 a - Z.log2 b in
  if ratio_ge_pow2 a b l then l else l - 1.

(** The binary64 value nearest to [a / b] (ties to even), for positive [a]
    and [b]; overflow gives infinity, underflow a subnormal or zero.  This is
    what [float(s)] computes for a decimal literal [s] (correct rounding). *)
Definition round_ratio (neg : bool) (a b : Z) : t :=
  let e := Z.max emin (ratio_log2 a b - 52) in
  let num := a * 2 ^ Z.max 0 (- e) in
  let den := b * 2 ^ Z.max 0 e in
  let q := num / den in
  let r := num mod den in
  let q' := if (den <? 2 * r) || ((den =? 2 * r) && Z.odd q) then q + 1 else q in
  let '(m, e') := if q' =? 2 ^ 53 then (2 ^ 52, e + 1) else (q', e) in
  if emax <? e' then Inf neg else Finite neg m e'.

(** The value [mant * 10^exp10], rounded. *)
Definition of_decimal (neg : bool) (mant exp10 : Z) : t :=
  if mant =? 0 then Finite neg 0 emin
  else if 0 <=? exp10 then round_ratio neg (mant * 10 ^ exp10) 1
  else round_ratio neg mant (10 ^ (- exp10)).

(** A JSON number literal with a fraction or an exponent, in the three groups
    the scanner hands to [float]: integer digits, fraction digits, and the
    exponent (sign and digits). *)
Record lit : Type := Lit {
  lit_neg : bool;
  lit_int : pystr;
  lit_frac : pystr;
  lit_exp : option (bool * pystr)
}.

Definition lit_exp_val (l : lit) : Z :=
  match lit_exp l with
  | None => 0
  | Some (true, ds) => - digits_val ds
  | Some (false, ds) => digits_val ds
  end.

(** [float(integer + frac + exp)]. *)
Definition of_lit (l : lit) : t :=
  of_decimal (lit_neg l)
    (digits_val (lit_int l ++ lit_frac l))
    (lit_exp_val l - Z.of_nat (length (lit_frac l))).

(** The text of a literal. *)
Definition render (l : lit) : pystr :=
  (if lit_neg l then [45] else [])
  ++ lit_int l
  ++ (match lit_frac l with [] => [] | _ => 46 :: lit_frac l end)
  ++ (match lit_exp l with
      | None => []
      | Some (s, ds) => 101 :: (if s then 45 else 43) :: ds
      end).

(** *** [float.__repr__]: the shortest decimal string that reads back *)

Fixpoint strip_zeros (fuel : nat) (d s : Z) : Z * Z :=
  match fuel with
  | O => (d, s)
  | S fuel' =>
      if (d mod 10 =? 0) && (0 <? d) then strip_zeros fuel' (d / 10) (s + 1)
      else (d, s)
  end.

Definition zeros (n : Z) : pystr := repeat 48 (Z.to_nat n).

(** Layout of the digit string [ds] with the decimal point after [decpt]
    digits, as [repr] prints it: exponent notation when [decpt <= -4] or
    [decpt > 16], positional notation with at least one fraction digit
    otherwise. *)
Definition layout (neg : bool) (ds : pystr) (decpt : Z) : lit :=
  let n := Z.of_nat (length ds) in
  if (decpt <=? -4) || (16 <? decpt) then
    let x := decpt - 1 in
    let xs := nat_digits (Z.abs x) in
    Lit neg (firstn 1 ds) (skipn 1 ds)
        (Some (x <? 0, if Z.abs x <? 10 then 48 :: xs else xs))
  else if decpt <=? 0 then
    Lit neg [48] (zeros (- decpt) ++ ds) None
  else if decpt <? n then
    Lit neg (firstn (Z.to_nat decpt) ds) (skipn (Z.to_nat decpt) ds) None
  else
    Lit neg (ds ++ zeros (decpt - n)) [48] None.

(** The literal for the decimal [d * 10^s]. *)
Definition candidate (neg : bool) (d s : Z) : lit :=
  let '(d', s') := strip_zeros (Z.to_nat (Z.log2 d)) d s in
  let ds := nat_digits d' in
  layout neg ds (s' + Z.of_nat (length ds)).

Definition reads_back (f : t) (d s : Z) : bool :=
  match f, of_lit (candidate false d s) with
  | Finite _ m e, Finite _ m' e' => (0 <? d) && (m =? m') && (e =? e')
  | _, _ => false
  end.

(** [floor (log10 (a / b))] for positive [a], [b]: start from the estimate
    given by the binary logarithm and move to the right decade. *)
Fixpoint log10_adjust (fuel : nat) (a b p : Z) : Z :=
  match fuel with
  | O => p
  | S fuel' =>
      if a * 10 ^ Z.max 0 (- p) <? b * 10 ^ Z.max 0 p then log10_adjust fuel' a b (p - 1)
      else if b * 10 ^ Z.max 0 (p + 1) <=? a * 10 ^ Z.max 0 (- (p + 1))
      then log10_adjust fuel' a b (p + 1)
      else p
  end.

Definition ratio_log10 (a b : Z) : Z :=
  log10_adjust 4 a b ((Z.log2 a - Z.log2 b) * 30103 / 100000).

(** Search for the shortest digit string: with [n] digits the two decimals
    next to [a / b] are tried; the nearer one that reads back wins. *)
Fixpoint shortest (fuel : nat) (f : t) (a b p n : Z) : option (Z * Z) :=
  match fuel with
  | O => None
  | S fuel' =>
      let s := p - n + 1 in
      let num := a * 10 ^ Z.max 0 (- s) in
      let den := b * 10 ^ Z.max 0 s in
      let lo := num / den in
      let r := num mod den in
      let hi := lo + 1 in
      let ok_lo := reads_back f lo s in
      let ok_hi := reads_back f hi s in
      let up := (den <? 2 * r) || ((den =? 2 * r) && Z.odd lo) in
      if ok_lo && ok_hi then Some (if up then hi else lo, s)
      else if ok_lo then Some (lo, s)
      else if ok_hi then Some (hi, s)
      else shortest fuel' f a b p (n + 1)
  end.

(** [repr] of a finite float.  Seventeen significant digits always suffice
    for a binary64 value, so the search stops there; should it ever fail, the
    exact decimal expansion [m * 5^(-e) * 10^e] (or [m * 2^e]) is printed in
    exponent form, which reads back as well. *)
Definition repr_lit (neg : bool) (m e : Z) : lit :=
  if m =? 0 then Lit neg [48] [48] None
  else
    let a := m * 2 ^ Z.max 0 e in
    let b := 2 ^ Z.max 0 (- e) in
    let p := ratio_log10 a b in
    match shortest 17 (Finite neg m e) a b p 1 with
    | Some (d, s) => candidate neg d s
    | None =>
        let x := Z.min 0 e in
        Lit neg (nat_digits (m * 5 ^ Z.max 0 (- e) * 2 ^ Z.max 0 e)) []
            (Some (x <? 0, nat_digits (Z.abs x)))
    end.

(** [float.__repr__]. *)
Definition repr (f : t) : pystr :=
  match f with
  | Nan => codes "nan"
  | Inf false => codes "inf"
  | Inf true => codes "-inf"
  | Finite neg m e => render (repr_lit neg m e)
  end.

(** Python's [==] on floats. *)
Definition eqb (x y : t) : bool :=
  match x, y with
  | Inf a, Inf b => Bool.eqb a b
  | Finite a m e, Finite b m' e' =>
      ((m =? 0) && (m' =? 0)) || (Bool.eqb a b && (m =? m') && (e =? e'))
  | _, _ => false
  end.

End PyFloat.

(** ** Exceptions *)

(** The exceptions the modelled code can raise.  All of them are subclasses
    of [Exception]. *)
Inductive exn : Type :=
| TypeError (msg : string)
| ValueError (msg : string)
| UnicodeDecodeError (obj : string) (start stop : nat) (reason : string)
| JSONDecodeError (msg : string) (doc : pystr) (pos : nat)
| RecursionError (msg : string)
| OSError (errno : Z) (strerror : string) (filename : string).

Inductive result (A : Type) : Type :=
| Ok (a : A)
| Raise (e : exn).
Arguments Ok {A} a.
Arguments Raise {A} e.


Definition nat_str (n : nat) : string := bytes_of (nat_digits (Z.of_nat n)).

Definition hex_digit (d : Z) : Z := if d <? 10 then 48 + d else 87 + d.

(** [doc.count('\n', 0, pos)] and the index just after the last newline
    before [pos]. *)
Fixpoint line_col (doc : pystr) (pos : nat) (line col : nat) : nat * nat :=
  match pos, doc with
  | S pos', c :: doc' =>
      if c =? newline then line_col doc' pos' (S line) 1%nat
      else line_col doc' pos' line (S col)
  | _, _ => (line, col)
  end.

(** [str(e)]. *)
Definition str_exn (e : exn) : string :=
  match e with
  | TypeError msg | ValueError msg | RecursionError msg => msg
  | UnicodeDecodeError obj start stop reason =>
      if (stop =? S start)%nat then
        let b := code (default zero (String.get start obj)) in
        "'utf-8' codec can't decode byte 0x"
        +:+ bytes_of [hex_digit (b / 16); hex_digit (b mod 16)]
        +:+ " in position " +:+ nat_str start +:+ ": " +:+ reason
      else
        "'utf-8' codec can't decode bytes in position "
        +:+ nat_str start +:+ "-" +:+ nat_str (stop - 1) +:+ ": " +:+ reason
  | JSONDecodeError msg doc pos =>
      let '(line, col) := line_col doc pos 1%nat 1%nat in
      msg +:+ ": line " +:+ nat_str line +:+ " column " +:+ nat_str col
          +:+ " (char " +:+ nat_str pos +:+ ")"
  | OSError errno strerror filename =>
      "[Errno " +:+ bytes_of (int_repr errno) +:+ "] " +:+ strerror
      +:+ ": '" +:+ filename +:+ "'"
  end.

(** ** [bytes.decode('utf-8')] *)

Definition is_cont (b : Z) : bool := (128 <=? b) && (b <? 192).

(** One step of CPython's UTF-8 decoder at offset [i]: the decoded code point
    and the rest, or the error span and reason. *)
Definition utf8_step (obj : string) (i : nat) (bs : pystr)
  : result (Z * nat * pystr) :=
  let err (len : nat) (reason : string) :=
    Raise (UnicodeDecodeError obj i (i + len) reason) in
  let eod := Raise (UnicodeDecodeError obj i (i + length bs) "unexpected end of data") in
  let bad_cont := err in
  match bs with
  | [] => eod
  | b0 :: r0 =>
      if b0 <? 128 then Ok (b0, S i, r0)
      else if b0 <? 194 then err 1%nat "invalid start byte"
      else if b0 <? 224 then
        match r0 with
        | [] => eod
        | b1 :: r1 =>
            if is_cont b1 then Ok ((b0 - 192) * 64 + (b1 - 128), (i + 2)%nat, r1)
            else bad_cont 1%nat "invalid continuation byte"
        end
      else if b0 <? 240 then
        match r0 with
        | [] => eod
        | b1 :: r1 =>
            if negb (is_cont b1)
               || (if b1 <? 160 then b0 =? 224 else b0 =? 237)
            then bad_cont 1%nat "invalid continuation byte"
            else
              match r1 with
              | [] => eod
              | b2 :: r2 =>
                  if is_cont b2 then
                    Ok ((b0 - 224) * 4096 + (b1 - 128) * 64 + (b2 - 128), (i + 3)%nat, r2)
                  else bad_cont 2%nat "invalid continuation byte"
              end
        end
      else if b0 <? 245 then
        match r0 with
        | [] => eod
        | b1 :: r1 =>
            if negb (is_cont b1)
               || (if b1 <? 144 then b0 =? 240 else b0 =? 244)
            then bad_cont 1%nat "invalid continuation byte"
            else
              match r1 with
              | [] => eod
              | b2 :: r2 =>
                  if negb (is_cont b2) then bad_cont 2%nat "invalid continuation byte"
                  else
                    match r2 with
                    | [] => eod
                    | b3 :: r3 =>
                        if is_cont b3 then
                          Ok ((b0 - 240) * 262144 + (b1 - 128) * 4096
                              + (b2 - 128) * 64 + (b3 - 128), (i + 4)%nat, r3)
                        else bad_cont 3%nat "invalid continuation byte"
                    end
              end
        end
      else err 1%nat "invalid start byte"
  end.

Fixpoint utf8_loop (fuel : nat) (obj : string) (i : nat) (bs : pystr) (acc : pystr)
  : result pystr :=
  match bs, fuel with
  | [], _ => Ok (rev acc)
  | _, O => Ok (rev acc)
  | _, S fuel' =>
      match utf8_step obj i bs with
      | Ok (c, i', bs') => utf8_loop fuel' obj i' bs' (c :: acc)
      | Raise e => Raise e
      end
  end.

(** [b.decode('utf-8')] (strict error handling). *)
Definition decode_utf8 (b : string) : result pystr :=
  utf8_loop (String.length b) b 0%nat (codes b) [].

(** ** JSON documents as Python values *)

(** What [json.loads] returns: [None], [bool], [int], [float], [str], [list]
    and [dict] with string keys.  A [dict] keeps its keys in insertion order. *)
Inductive pyval : Type :=
| PNone
| PBool (b : bool)
| PInt (z : Z)
| PFloat (f : PyFloat.t)
| PStr (s : pystr)
| PList (l : list pyval)
| PDict (d : list (pystr * pyval)).

Definition pystr_eqb (a b : pystr) : bool := bool_decide (a = b).

(** [d[key] = val]: a key already present keeps its place and gets the new
    value; a new key goes to the end. *)
Fixpoint dict_set (key : pystr) (val : pyval) (d : list (pystr * pyval))
  : list (pystr * pyval) :=
  match d with
  | [] => [(key, val)]
  | (k, v) :: d' =>
      if pystr_eqb k key then (k, val) :: d' else (k, v) :: dict_set key val d'
  end.

(** ** [json.loads]: the scanner of [json.decoder] / [_json] *)

(** Inside the scanner an error is either [StopIteration(idx)] (no value
    starts at [idx]), a [JSONDecodeError] message with its position, or the
    recursion guard. *)
Inductive scan_error : Type :=
| StopIteration (idx : nat)
| Errmsg (msg : string) (pos : nat)
| TooDeep.

Inductive scan (A : Type) : Type :=
| Found (a : A) (next : nat) (rest : pystr)
| Fail (e : scan_error).
Arguments Found {A} a next rest.
Arguments Fail {A} e.

Definition is_ws (c : Z) : bool :=
  (c =? 32) || (c =? 9) || (c =? 10) || (c =? 13).

(** Skip [ \t\n\r]*. *)
Fixpoint skip_ws (idx : nat) (s : pystr) : nat * pystr :=
  match s with
  | c :: s' => if is_ws c then skip_ws (S idx) s' else (idx, s)
  | [] => (idx, s)
  end.

Definition hex_val (c : Z) : option Z :=
  if (48 <=? c) && (c <=? 57) then Some (c - 48)
  else if (97 <=? c) && (c <=? 102) then Some (c - 87)
  else if (65 <=? c) && (c <=? 70) then Some (c - 55)
  else None.

Definition hex4 (h1 h2 h3 h4 : Z) : option Z :=
  match hex_val h1, hex_val h2, hex_val h3, hex_val h4 with
  | Some a, Some b, Some c, Some d => Some (((a * 16 + b) * 16 + c) * 16 + d)
  | _, _, _, _ => None
  end.

Definition is_high_surrogate (c : Z) : bool := (55296 <=? c) && (c <=? 56319).
Definition is_low_surrogate (c : Z) : bool := (56320 <=? c) && (c <=? 57343).
Definition join_surrogates (hi lo : Z) : Z :=
  65536 + (hi - 55296) * 1024 + (lo - 56320).

Definition simple_escape (c : Z) : option Z :=
  if c =? dquote then Some dquote
  else if c =? backslash then Some backslash
  else if c =? 47 then Some 47
  else if c =? 98 then Some 8
  else if c =? 102 then Some 12
  else if c =? 110 then Some 10
  else if c =? 114 then Some 13
  else if c =? 116 then Some 9
  else None.

(** The look-ahead after a high surrogate escape: if the text goes on with
    [\u] and four more characters, they must be hexadecimal digits ([bad]
    otherwise) and [pair] decides on their value; in every other case the
    escape stands alone ([single]). *)
Definition after_high {A : Type} (s : pystr) (single bad : A) (pair : Z -> pystr -> A) : A :=
  match s with
  | b :: u :: l1 :: l2 :: l3 :: l4 :: s' =>
      if (b =? backslash) && (u =? 117) then
        match hex4 l1 l2 l3 l4 with
        | None => bad
        | Some u2 => pair u2 s'
        end
      else single
  | _ => single
  end.

(** [scanstring(s, end, strict=True)]: [idx] is the position of the head of
    [s], just after the opening quote at [begin]. *)
Fixpoint scanstring (begin idx : nat) (s : pystr) (acc : pystr) {struct s}
  : scan pystr :=
  match s with
  | [] => Fail (Errmsg "Unterminated string starting at" begin)
  | c :: s1 =>
      if c =? dquote then Found (rev acc) (S idx) s1
      else if c =? backslash then
        match s1 with
        | [] => Fail (Errmsg "Unterminated string starting at" begin)
        | c1 :: s2 =>
            if c1 =? 117 then
              match s2 with
              | h1 :: h2 :: h3 :: h4 :: s3 =>
                  match hex4 h1 h2 h3 h4 with
                  | None => Fail (Errmsg "Invalid \uXXXX escape" (idx + 1))
                  | Some u =>
                      let single := scanstring begin (idx + 6) s3 (u :: acc) in
                      if is_high_surrogate u then
                        after_high s3 single
                          (Fail (Errmsg "Invalid \uXXXX escape" (idx + 7)))
                          (fun u2 s4 =>
                             if is_low_surrogate u2 then
                               scanstring begin (idx + 12) s4 (join_surrogates u u2 :: acc)
                             else single)
                      else single
                  end
              | _ => Fail (Errmsg "Invalid \uXXXX escape" (idx + 1))
              end
            else
              match simple_escape c1 with
              | Some e => scanstring begin (idx + 2) s2 (e :: acc)
              | None => Fail (Errmsg "Invalid \escape" idx)
              end
        end
      else if c <=? 31 then Fail (Errmsg "Invalid control character at" idx)
      else scanstring begin (S idx) s1 (c :: acc)
  end.

(** The longest run of decimal digits at the head of [s]. *)
Fixpoint span_digits (s : pystr) : pystr * pystr :=
  match s with
  | c :: s' =>
      if is_digit c then let '(ds, r) := span_digits s' in (c :: ds, r)
      else ([], s)
  | [] => ([], [])
  end.

(** The groups of [_match_number]: an optional minus sign; the integer part
    ([0], or a non-zero digit and more digits); a fraction (a point and at
    least one digit); an exponent ([e] or [E], an optional sign, at least one
    digit). *)
Definition scan_sign (s : pystr) : bool * pystr :=
  match s with
  | c :: s' => if c =? 45 then (true, s') else (false, s)
  | [] => (false, s)
  end.

Definition scan_int (s : pystr) : option (pystr * pystr) :=
  match s with
  | c :: s' =>
      if (49 <=? c) && (c <=? 57) then
        let '(ds, r) := span_digits s' in Some (c :: ds, r)
      else if c =? 48 then Some ([48], s')
      else None
  | [] => None
  end.

Definition scan_frac (s : pystr) : pystr * pystr :=
  match s with
  | p :: d :: r =>
      if (p =? 46) && is_digit d then
        let '(ds, r') := span_digits r in (d :: ds, r')
      else ([], s)
  | _ => ([], s)
  end.

Definition scan_exp (s : pystr) : option (bool * pystr) * pystr :=
  match s with
  | e :: r =>
      if (e =? 101) || (e =? 69) then
        let '(sgn, r') :=
          match r with
          | c :: r'' =>
              if c =? 45 then (true, r'')
              else if c =? 43 then (false, r'')
              else (false, r)
          | [] => (false, r)
          end in
        match span_digits r' with
        | ([], _) => (None, s)
        | (ds, r'') => (Some (sgn, ds), r'')
        end
      else (None, s)
  | [] => (None, s)
  end.

(** [_match_number]: an integer literal becomes an [int], a literal with a
    fraction or an exponent a [float]. *)
Definition match_number (idx : nat) (s : pystr) : scan pyval :=
  let '(neg, s1) := scan_sign s in
  match scan_int s1 with
  | None => Fail (StopIteration idx)
  | Some (ints, r1) =>
      let '(frac, r2) := scan_frac r1 in
      let '(ex, r3) := scan_exp r2 in
      let next := (idx + (length s - length r3))%nat in
      match frac, ex with
      | [], None =>
          Found (PInt (if neg then - digits_val ints else digits_val ints)) next r3
      | _, _ => Found (PFloat (PyFloat.of_lit (PyFloat.Lit neg ints frac ex))) next r3
      end
  end.

(** Does [s] start with the text [w]?  Returns the rest. *)
Fixpoint strip_prefix (w s : pystr) : option pystr :=
  match w, s with
  | [], _ => Some s
  | a :: w', c :: s' => if a =? c then strip_prefix w' s' else None
  | _ :: _, [] => None
  end.

Definition constant (w : string) (v : pyval) (idx : nat) (s : pystr) : option (scan pyval) :=
  match strip_prefix (codes w) s with
  | Some r => Some (Found v (idx + String.length w)%nat r)
  | None => None
  end.

(** [scan_once], [_parse_array] and [_parse_object].  The fuel stands for the
    interpreter's stack: [json_loads] supplies more than any document needs. *)
Fixpoint scan_once (fuel : nat) (idx : nat) (s : pystr) {struct fuel} : scan pyval :=
  match fuel with
  | O => Fail TooDeep
  | S fuel' =>
      match s with
      | [] => Fail (StopIteration idx)
      | c :: s' =>
          if c =? dquote then
            match scanstring idx (S idx) s' [] with
            | Found str next rest => Found (PStr str) next rest
            | Fail e => Fail e
            end
          else if c =? 123 then
            let '(i, r) := skip_ws (S idx) s' in
            match r with
            | c' :: r' =>
                if c' =? 125 then Found (PDict []) (S i) r'
                else parse_object fuel' [] i r
            | [] => parse_object fuel' [] i r
            end
          else if c =? 91 then
            let '(i, r) := skip_ws (S idx) s' in
            match r with
            | c' :: r' =>
                if c' =? 93 then Found (PList []) (S i) r'
                else parse_array fuel' [] i r
            | [] => parse_array fuel' [] i r
            end
          else
            let named :=
              if c =? 110 then constant "null" PNone idx s
              else if c =? 116 then constant "true" (PBool true) idx s
              else if c =? 102 then constant "false" (PBool false) idx s
              else if c =? 78 then constant "NaN" (PFloat PyFloat.Nan) idx s
              else if c =? 73 then constant "Infinity" (PFloat (PyFloat.Inf false)) idx s
              else if c =? 45 then constant "-Infinity" (PFloat (PyFloat.Inf true)) idx s
              else None in
            match named with
            | Some r => r
            | None => match_number idx s
            end
      end
  end

with parse_array (fuel : nat) (acc : list pyval) (idx : nat) (s : pystr) {struct fuel}
  : scan pyval :=
  match fuel with
  | O => Fail TooDeep
  | S fuel' =>
      match scan_once fuel' idx s with
      | Fail e => Fail e
      | Found v i1 r1 =>
          let '(i2, r2) := skip_ws i1 r1 in
          match r2 with
          | c :: r3 =>
              if c =? 93 then Found (PList (rev (v :: acc))) (S i2) r3
              else if c =? 44 then
                let '(i3, r4) := skip_ws (S i2) r3 in
                parse_array fuel' (v :: acc) i3 r4
              else Fail (Errmsg "Expecting ',' delimiter" i2)
          | [] => Fail (Errmsg "Expecting ',' delimiter" i2)
          end
      end
  end

with parse_object (fuel : nat) (acc : list (pystr * pyval)) (idx : nat) (s : pystr)
  {struct fuel} : scan pyval :=
  match fuel with
  | O => Fail TooDeep
  | S fuel' =>
      match s with
      | q :: s1 =>
          if q =? dquote then
            match scanstring idx (S idx) s1 [] with
            | Fail e => Fail e
            | Found key i1 r1 =>
                let '(i2, r2) := skip_ws i1 r1 in
                match r2 with
                | c :: r3 =>
                    if c =? 58 then
                      let '(i3, r4) := skip_ws (S i2) r3 in
                      match scan_once fuel' i3 r4 with
                      | Fail e => Fail e
                      | Found v i4 r5 =>
                          let acc' := dict_set key v acc in
                          let '(i5, r6) := skip_ws i4 r5 in
                          match r6 with
                          | c' :: r7 =>
                              if c' =? 125 then Found (PDict acc') (S i5) r7
                              else if c' =? 44 then
                                let '(i6, r8) := skip_ws (S i5) r7 in
                                parse_object fuel' acc' i6 r8
                              else Fail (Errmsg "Expecting ',' delimiter" i5)
                          | [] => Fail (Errmsg "Expecting ',' delimiter" i5)
                          end
                      end
                    else Fail (Errmsg "Expecting ':' delimiter" i2)
                | [] => Fail (Errmsg "Expecting ':' delimiter" i2)
                end
            end
          else Fail (Errmsg "Expecting property name enclosed in double quotes" idx)
      | [] => Fail (Errmsg "Expecting property name enclosed in double quotes" idx)
      end
  end.

(** [json.loads(s)] for a [str]: reject a byte order mark, skip white space,
    scan one value, skip white space, and insist on the end of the text. *)
Definition starts_with_bom (doc : pystr) : bool :=
  match doc with
  | c :: _ => c =? 65279
  | [] => false
  end.

Definition json_loads (doc : pystr) : result pyval :=
  if starts_with_bom doc then
    Raise (JSONDecodeError "Unexpected UTF-8 BOM (decode using utf-8-sig)" doc 0)
  else
    let '(i0, r0) := skip_ws 0 doc in
    match scan_once (S (2 * length doc)) i0 r0 with
    | Fail (StopIteration i) => Raise (JSONDecodeError "Expecting value" doc i)
    | Fail (Errmsg msg pos) => Raise (JSONDecodeError msg doc pos)
    | Fail TooDeep =>
        Raise (RecursionError "maximum recursion depth exceeded while decoding a JSON document")
    | Found v i1 r1 =>
        match skip_ws i1 r1 with
        | (_, []) => Ok v
        | (i2, _ :: _) => Raise (JSONDecodeError "Extra data" doc i2)
        end
    end.

(** ** [json.dump] / [json.dumps]: the encoder of [json.encoder] *)

Definition hex4_of (n : Z) : pystr :=
  [hex_digit (n / 4096 mod 16); hex_digit (n / 256 mod 16);
   hex_digit (n / 16 mod 16); hex_digit (n mod 16)].

Definition u_escape (n : Z) : pystr := backslash :: 117 :: hex4_of n.

(** The replacement of one character by [py_encode_basestring_ascii]:
    printable ASCII other than the quote and the backslash stands for itself,
    the rest is escaped. *)
Definition escape_char (c : Z) : pystr :=
  if c =? dquote then [backslash; dquote]
  else if c =? backslash then [backslash; backslash]
  else if c =? 10 then [backslash; 110]
  else if c =? 13 then [backslash; 114]
  else if c =? 9 then [backslash; 116]
  else if c =? 8 then [backslash; 98]
  else if c =? 12 then [backslash; 102]
  else if (32 <=? c) && (c <=? 126) then [c]
  else if c <? 65536 then u_escape c
  else
    let n := c - 65536 in
    u_escape (Z.lor 55296 (Z.land (Z.shiftr n 10) 1023))
    ++ u_escape (Z.lor 56320 (Z.land n 1023)).

Definition encode_basestring_ascii (s : pystr) : pystr :=
  dquote :: flat_map escape_char s ++ [dquote].

(** [floatstr]. *)
Definition floatstr (f : PyFloat.t) : pystr :=
  match f with
  | PyFloat.Nan => codes "NaN"
  | PyFloat.Inf false => codes "Infinity"
  | PyFloat.Inf true => codes "-Infinity"
  | _ => PyFloat.repr f
  end.

(** ['\n' + indent * level], or nothing without an indent. *)
Definition newline_indent (indent : option nat) (level : nat) : pystr :=
  match indent with
  | Some n => newline :: repeat 32 (n * level)
  | None => []
  end.

(** The item separator is [', '] by default and [','] when an indent is
    given; the key separator is [': ']. *)
Definition item_separator (indent : option nat) : pystr :=
  match indent with
  | Some _ => [44]
  | None => [44; 32]
  end.

Fixpoint join (sep : pystr) (chunks : list pystr) : pystr :=
  match chunks with
  | [] => []
  | [c] => c
  | c :: cs => c ++ sep ++ join sep cs
  end.

(** The concatenation of the chunks [iterencode] yields for [v] at nesting
    depth [level]. *)
Fixpoint iterencode (indent : option nat) (level : nat) (v : pyval) {struct v} : pystr :=
  match v with
  | PNone => codes "null"
  | PBool true => codes "true"
  | PBool false => codes "false"
  | PInt z => int_repr z
  | PFloat f => floatstr f
  | PStr s => encode_basestring_ascii s
  | PList [] => codes "[]"
  | PList l =>
      let inner := newline_indent indent (S level) in
      [91] ++ inner
      ++ join (item_separator indent ++ inner) (List.map (iterencode indent (S level)) l)
      ++ newline_indent indent level ++ [93]
  | PDict [] => codes "{}"
  | PDict d =>
      let inner := newline_indent indent (S level) in
      [123] ++ inner
      ++ join (item_separator indent ++ inner)
           (List.map (fun kv => encode_basestring_ascii (fst kv) ++ [58; 32]
                                ++ iterencode indent (S level) (snd kv)) d)
      ++ newline_indent indent level ++ [125]
  end.

(** [json.dumps(v)] with the default separators, and the text that
    [json.dump(v, f, indent=2)] writes to [f]. *)
Definition json_dumps (v : pyval) : pystr := iterencode None 0 v.
Definition json_dump_indent2 (v : pyval) : pystr := iterencode (Some 2%nat) 0 v.

(** ** The world of a request: files and the response being written *)

(** An entry of the working directory. *)
Inductive node : Type :=
| Regular (writable : bool) (data : string)
| Directory.

Record filesystem : Type := Filesystem {
  cwd_writable : bool;
  entries : gmap string node
}.

(** The response as the handler builds it: [send_response] sets the status and
    the two standard headers, [send_header] adds one, [end_headers] closes the
    header block, [wfile.write] adds to the body.  A response whose status is
    [None] was never started: the client receives nothing. *)
Record response : Type := Response {
  status : option Z;
  resp_headers : list (string * string);
  headers_ended : bool;
  body : string
}.

(** The calls made on files, most recent last. *)
Inductive fileop : Type :=
| OpOpen (path : string)
| OpWrite (path : string) (data : string).

Record world : Type := World {
  files : filesystem;
  wfile : response;
  fileops : list fileop
}.

(** What the model takes from the runtime without computing it. *)
Record environ : Type := Environ {
  version_string : string;
  date_time_string : string;
  error_page : Z -> string -> string
}.

Definition no_response : response := Response None [] false "".

(** Computations that read and change the world and may raise. *)
Definition io (A : Type) : Type := world -> result A * world.

Definition ret {A : Type} (a : A) : io A := fun w => (Ok a, w).

Definition bind {A B : Type} (c : io A) (k : A -> io B) : io B :=
  fun w =>
    match c w with
    | (Ok a, w') => k a w'
    | (Raise e, w') => (Raise e, w')
    end.

Definition lift {A : Type} (r : result A) : io A := fun w => (r, w).

(** [try: body / except Exception as e: handler(e)]. *)
Definition try_except {A : Type} (body : io A) (handler : exn -> io A) : io A :=
  fun w =>
    match body w with
    | (Ok a, w') => (Ok a, w')
    | (Raise e, w') => handler e w'
    end.

Notation "x <- c1 ;; c2" := (bind c1 (fun x => c2))
  (at level 100, c1 at next level, right associativity).
Notation "c1 ;;; c2" := (bind c1 (fun _ => c2))
  (at level 100, right associativity).

(** *** Files *)

(** [open(path, 'w')]: an existing writable file is truncated, a missing one
    is created when the directory allows it. *)
Definition open_w (path : string) : io unit :=
  fun w =>
    let fs := files w in
    let ops := fileops w ++ [OpOpen path] in
    let truncated :=
      World (Filesystem (cwd_writable fs) (<[path := Regular true ""]> (entries fs)))
            (wfile w) ops in
    let refused := World fs (wfile w) ops in
    match entries fs !! path with
    | Some Directory => (Raise (OSError 21 "Is a directory" path), refused)
    | Some (Regular false _) => (Raise (OSError 13 "Permission denied" path), refused)
    | Some (Regular true _) => (Ok tt, truncated)
    | None =>
        if cwd_writable fs then (Ok tt, truncated)
        else (Raise (OSError 13 "Permission denied" path), refused)
    end.

(** [f.write(text)] on the file opened at [path] (no newline translation,
    as on POSIX systems). *)
Definition file_write (path : string) (text : pystr) : io unit :=
  fun w =>
    let fs := files w in
    let ops := fileops w ++ [OpWrite path (bytes_of text)] in
    match entries fs !! path with
    | Some (Regular wr data) =>
        (Ok tt,
         World (Filesystem (cwd_writable fs)
                  (<[path := Regular wr (data +:+ bytes_of text)]> (entries fs)))
               (wfile w) ops)
    | _ => (Ok tt, World fs (wfile w) ops)
    end.

(** [json.dump(v, f, indent=2)]: the chunks of the encoder, written to [f]. *)
Definition json_dump (v : pyval) (path : string) : io unit :=
  file_write path (json_dump_indent2 v).

(** The bytes of the file at [path], if it is a regular file. *)
Definition file_data (fs : filesystem) (path : string) : option string :=
  match entries fs !! path with
  | Some (Regular _ data) => Some data
  | _ => None
  end.

(** *** The response *)

Definition on_wfile (f : response -> response) : io unit :=
  fun w => (Ok tt, World (files w) (f (wfile w)) (fileops w)).

(** [send_response(code)]: the status line, then the Server and Date headers. *)
Definition send_response (env : environ) (code : Z) : io unit :=
  on_wfile (fun r =>
    Response (Some code)
      (resp_headers r ++ [("Server", version_string env); ("Date", date_time_string env)])
      (headers_ended r) (body r)).

Definition send_header (key value : string) : io unit :=
  on_wfile (fun r =>
    Response (status r) (resp_headers r ++ [(key, value)]) (headers_ended r) (body r)).

Definition end_headers : io unit :=
  on_wfile (fun r => Response (status r) (resp_headers r) true (body r)).

Definition wfile_write (data : string) : io unit :=
  on_wfile (fun r =>
    Response (status r) (resp_headers r) (headers_ended r) (body r +:+ data)).

(** [send_error(code, message)] of the base class: an HTML error page. *)
Definition send_error (env : environ) (code : Z) (message : string) : io unit :=
  let page := error_page env code message in
  send_response env code ;;;
  send_header "Connection" "close" ;;;
  send_header "Content-Type" "text/html;charset=utf-8" ;;;
  send_header "Content-Length" (nat_str (String.length page)) ;;;
  end_headers ;;;
  wfile_write page.

(** ** The request *)

Record request : Type := Request {
  command : string;
  path : string;
  headers : list (string * string);
  rfile : string
}.

Definition lower (a : ascii) : ascii :=
  let n := nat_of_ascii a in
  if ((65 <=? n) && (n <=? 90))%nat then ascii_of_nat (n + 32) else a.

Fixpoint lower_string (s : string) : string :=
  match s with
  | EmptyString => EmptyString
  | String a s' => String (lower a) (lower_string s')
  end.

(** [headers[name]]: the first header whose name matches, case-insensitively;
    [None] when there is none. *)
Fixpoint headers_get (hs : list (string * string)) (name : string) : option string :=
  match hs with
  | [] => None
  | (k, v) :: hs' =>
      if String.eqb (lower_string k) (lower_string name) then Some v
      else headers_get hs' name
  end.

(** *** [int(x)] *)

Definition is_space (c : Z) : bool :=
  ((9 <=? c) && (c <=? 13)) || ((28 <=? c) && (c <=? 32)) || (c =? 133) || (c =? 160).

Fixpoint lstrip (s : pystr) : pystr :=
  match s with
  | c :: s' => if is_space c then lstrip s' else s
  | [] => []
  end.

Definition strip (s : pystr) : pystr := rev (lstrip (rev (lstrip s))).

(** Digits with single underscores between them; [prev] tells whether the
    previous character was a digit. *)
Fixpoint int_digits (s : pystr) (prev : bool) (acc : Z) : option Z :=
  match s with
  | [] => if prev then Some acc else None
  | c :: s' =>
      if is_digit c then int_digits s' true (10 * acc + (c - 48))
      else if (c =? 95) && prev then int_digits s' false acc
      else None
  end.

Definition int_literal (s : pystr) : option Z :=
  match strip s with
  | c :: s' =>
      if c =? 45 then option_map Z.opp (int_digits s' false 0)
      else if c =? 43 then int_digits s' false 0
      else int_digits (c :: s') false 0
  | [] => None
  end.

(** [int(x)] where [x] is a header value or [None].  (The message shows the
    literal between plain quotes.) *)
Definition py_int (x : option string) : result Z :=
  match x with
  | None =>
      Raise (TypeError
        "int() argument must be a string, a bytes-like object or a real number, not 'NoneType'")
  | Some s =>
      match int_literal (codes s) with
      | Some z => Ok z
      | None => Raise (ValueError ("invalid literal for int() with base 10: '" +:+ s +:+ "'"))
      end
  end.

(** [rfile.read(n)]: at most [n] bytes, everything for [-1]. *)
Definition rfile_read (stream : string) (n : Z) : result string :=
  if n <? -1 then Raise (ValueError "read length must be non-negative or -1")
  else if n =? -1 then Ok stream
  else Ok (String.substring 0 (Z.to_nat n) stream).

(** ** The handler *)

Definition config_path : string := "config.json".

Definition success_body : string :=
  bytes_of (codes "{" ++ [dquote] ++ codes "success" ++ [dquote] ++ codes ": true}").

(** [json.dumps({"error": str(e)}).encode()]. *)
Definition error_body (e : exn) : string :=
  bytes_of (json_dumps (PDict [(codes "error", PStr (codes (str_exn e)))])).

(** [Handler.do_POST]. *)
Definition do_POST (env : environ) (req : request) : io unit :=
  if String.eqb (path req) "/save-config" then
    content_length <- lift (py_int (headers_get (headers req) "Content-Length")) ;;
    post_data <- lift (rfile_read (rfile req) content_length) ;;
    try_except
      (text <- lift (decode_utf8 post_data) ;;
       config <- lift (json_loads text) ;;
       open_w config_path ;;;
       json_dump config config_path ;;;
       send_response env 200 ;;;
       send_header "Content-Type" "application/json" ;;;
       end_headers ;;;
       wfile_write success_body)
      (fun e =>
       send_response env 500 ;;;
       send_header "Content-Type" "application/json" ;;;
       end_headers ;;;
       wfile_write (error_body e))
  else
    send_response env 404 ;;;
    end_headers.

(** The dispatch of [BaseHTTPRequestHandler.handle_one_request]: the method
    [do_<command>] runs if the class has one.  [Handler] defines [do_POST] and
    inherits [do_GET] and [do_HEAD] from [SimpleHTTPRequestHandler] (the static
    file server, taken as given); any other command is answered 501. *)
Definition handle_one_request (env : environ) (inherited : request -> io unit)
  (req : request) : io unit :=
  if String.eqb (command req) "POST" then do_POST env req
  else if String.eqb (command req) "GET" || String.eqb (command req) "HEAD"
  then inherited req
  else send_error env 501 ("Unsupported method ('" +:+ command req +:+ "')").

(** Running the handler for one request on a fresh connection. *)
Definition serve (env : environ) (req : request) (fs : filesystem)
  : result unit * world :=
  do_POST env req (World fs no_response []).

(** ** The server *)

(** One connection, as [BaseServer._handle_request_noblock] treats it: the
    handler runs on a fresh connection; an exception that leaves it is
    reported on stderr by [handle_error] and the server goes on.  What the
    client gets is what the handler wrote. *)
Definition process_request (env : environ) (inherited : request -> io unit)
  (req : request) (fs : filesystem) : response * filesystem :=
  let '(_, w) := handle_one_request env inherited req (World fs no_response []) in
  (wfile w, files w).

(** [HTTPServer.serve_forever] over the connections that come in, one request
    each, handled one after the other in the only thread of the server. *)
Fixpoint serve_forever (env : environ) (inherited : request -> io unit)
  (incoming : list request) (fs : filesystem) : list response * filesystem :=
  match incoming with
  | [] => ([], fs)
  | req :: more =>
      let '(answer, fs1) := process_request env inherited req fs in
      let '(answers, fs2) := serve_forever env inherited more fs1 in
      (answer :: answers, fs2)
  end.

(** The script: the port, the line printed at start, and the server. *)
Definition port : Z := 3000.

Definition main (env : environ) (inherited : request -> io unit)
  (incoming : list request) (fs : filesystem)
  : string * (list response * filesystem) :=
  (bytes_of (codes "Starting server at http://localhost:" ++ int_repr port ++ [newline]),
   serve_forever env inherited incoming fs).

(** ** Vocabulary for the statements *)

(** The bytes the handler reads as the request body: [Content-Length] parsed
    by [int], then that many bytes of the stream. *)
Definition received (req : request) : result string :=
  match py_int (headers_get (headers req) "Content-Length") with
  | Ok n => rfile_read (rfile req) n
  | Raise e => Raise e
  end.

(** [json.loads(data.decode('utf-8'))]: the document a byte string holds. *)
Definition parse_body (data : string) : result pyval :=
  match decode_utf8 data with
  | Ok text => json_loads text
  | Raise e => Raise e
  end.

(** A complete response with status [code], the headers [send_response]
    always writes followed by [extra], and [content] as body. *)
Definition reply (env : environ) (code : Z) (extra : list (string * string))
  (content : string) : response :=
  Response (Some code)
    ([("Server", version_string env); ("Date", date_time_string env)] ++ extra)
    true content.

Definition json_reply (env : environ) (code : Z) (content : string) : response :=
  reply env code [("Content-Type", "application/json")] content.

(** Whether [open(path, 'w')] succeeds, and the error it raises otherwise. *)
Definition can_open (fs : filesystem) (path : string) : bool :=
  match entries fs !! path with
  | Some (Regular true _) => true
  | Some _ => false
  | None => cwd_writable fs
  end.

Definition open_error (fs : filesystem) (path : string) : exn :=
  match entries fs !! path with
  | Some Directory => OSError 21 "Is a directory" path
  | _ => OSError 13 "Permission denied" path
  end.

(** The file system after [data] has replaced the content of the config file. *)
Definition saved (fs : filesystem) (data : string) : filesystem :=
  Filesystem (cwd_writable fs) (<[config_path := Regular true data]> (entries fs)).

(** The text [json.dump(config, f, indent=2)] leaves in the file. *)
Definition config_text (config : pyval) : string := bytes_of (json_dump_indent2 config).

(** The outcome of [do_POST], case by case. *)
Definition outcome (env : environ) (req : request) (fs : filesystem)
  : result unit * world :=
  if String.eqb (path req) "/save-config" then
    match received req with
    | Raise e => (Raise e, World fs no_response [])
    | Ok post_data =>
        match parse_body post_data with
        | Raise e => (Ok tt, World fs (json_reply env 500 (error_body e)) [])
        | Ok config =>
            if can_open fs config_path then
              (Ok tt,
               World (saved fs (config_text config)) (json_reply env 200 success_body)
                     [OpOpen config_path; OpWrite config_path (config_text config)])
            else
              (Ok tt,
               World fs (json_reply env 500 (error_body (open_error fs config_path)))
                     [OpOpen config_path])
        end
    end
  else (Ok tt, World fs (reply env 404 [] "") []).

(** * Properties of the library routines *)

(** ** Decimal numerals *)

Definition all_digits (ds : pystr) : Prop := Forall (fun c => is_digit c = true) ds.

Lemma is_digit_range c : is_digit c = true <-> 48 <= c <= 57.
Proof. unfold is_digit. lia. Qed.

Lemma digits_val_snoc ds d : digits_val (ds ++ [d]) = 10 * digits_val ds + (d - 48).
Proof. unfold digits_val. by rewrite fold_left_app. Qed.

Lemma fold_digits_shift ds acc :
  fold_left (fun a d => 10 * a + (d - 48)) ds acc
  = acc * 10 ^ Z.of_nat (length ds) + digits_val ds.
Proof.
  unfold digits_val. revert acc.
  induction ds as [|d ds IH]; intros acc; simpl.
  - lia.
  - rewrite IH, (IH (10 * 0 + (d - 48))).
    replace (Z.of_nat (S (length ds))) with (1 + Z.of_nat (length ds)) by lia.
    rewrite Z.pow_add_r by lia. lia.
Qed.

Lemma digits_val_app a b :
  digits_val (a ++ b) = digits_val a * 10 ^ Z.of_nat (length b) + digits_val b.
Proof.
  unfold digits_val at 1. rewrite fold_left_app, fold_digits_shift. reflexivity.
Qed.

Lemma digits_val_nonneg ds : all_digits ds -> 0 <= digits_val ds.
Proof.
  induction ds as [|d ds IH] using rev_ind; intros H.
  - done.
  - apply Forall_app in H as [H1 H2]. inversion H2; subst.
    rewrite digits_val_snoc. apply is_digit_range in H3. specialize (IH H1). lia.
Qed.

Lemma digits_val_zeros n : digits_val (repeat 48 n) = 0.
Proof.
  induction n as [|n IH]; [done|].
  change (repeat 48 (S n)) with ([48] ++ repeat 48 n).
  rewrite digits_val_app, IH. reflexivity.
Qed.

Lemma all_digits_zeros n : all_digits (repeat 48 n).
Proof. induction n; constructor; auto. Qed.

Lemma digits_fuel_acc fuel n acc :
  digits_fuel fuel n acc = digits_fuel fuel n [] ++ acc.
Proof.
  revert n acc. induction fuel as [|fuel IH]; intros n acc; simpl; [done|].
  destruct (n <? 10); [done|].
  rewrite IH, (IH _ [_]), <- app_assoc. reflexivity.
Qed.

Lemma digits_fuel_val fuel n :
  0 <= n < 10 ^ Z.of_nat fuel -> digits_val (digits_fuel fuel n []) = n.
Proof.
  revert n. induction fuel as [|fuel IH]; intros n Hn.
  - simpl in *. change (10 ^ 0) with 1 in Hn. assert (n = 0) by lia. by subst.
  - simpl digits_fuel. destruct (n <? 10) eqn:E.
    + apply Z.ltb_lt in E. unfold digits_val. simpl. rewrite Z.mod_small; lia.
    + apply Z.ltb_ge in E. rewrite digits_fuel_acc, digits_val_snoc.
      rewrite IH.
      * pose proof (Z.div_mod n 10). lia.
      * replace (Z.of_nat (S fuel)) with (1 + Z.of_nat fuel) in Hn by lia.
        rewrite Z.pow_add_r in Hn by lia.
        split; [apply Z.div_pos; lia|].
        apply Z.div_lt_upper_bound; lia.
Qed.

Lemma digits_fuel_digits fuel n : all_digits (digits_fuel fuel n []).
Proof.
  revert n. induction fuel as [|fuel IH]; intros n; simpl; [constructor|].
  assert (Hd : is_digit (48 + n mod 10) = true).
  { apply is_digit_range. pose proof (Z.mod_pos_bound n 10). lia. }
  destruct (n <? 10).
  - by constructor.
  - rewrite digits_fuel_acc. apply Forall_app. split; [apply IH|by constructor].
Qed.

(** A positive number starts with a non-zero digit. *)
Lemma digits_fuel_head fuel n :
  0 < n < 10 ^ Z.of_nat fuel ->
  exists d ds, digits_fuel fuel n [] = d :: ds /\ 49 <= d <= 57.
Proof.
  revert n. induction fuel as [|fuel IH]; intros n Hn.
  - simpl in Hn. change (10 ^ 0) with 1 in Hn. lia.
  - simpl digits_fuel. destruct (n <? 10) eqn:E.
    + apply Z.ltb_lt in E. exists (48 + n mod 10), [].
      split; [reflexivity|]. rewrite Z.mod_small; lia.
    + apply Z.ltb_ge in E. rewrite digits_fuel_acc.
      destruct (IH (n / 10)) as (d & ds & -> & Hd).
      * replace (Z.of_nat (S fuel)) with (1 + Z.of_nat fuel) in Hn by lia.
        rewrite Z.pow_add_r in Hn by lia.
        split; [apply Z.div_str_pos; lia|].
        apply Z.div_lt_upper_bound; lia.
      * eauto.
Qed.

Lemma nat_digits_fuel n : 0 <= n -> n < 10 ^ Z.of_nat (S (Z.to_nat (Z.log2 n))).
Proof.
  intros Hn. destruct (Z.eq_dec n 0) as [->|Hz]; [done|].
  pose proof (Z.log2_nonneg n).
  replace (Z.of_nat (S (Z.to_nat (Z.log2 n)))) with (Z.log2 n + 1) by lia.
  pose proof (Z.log2_spec n ltac:(lia)) as [_ Hl].
  replace (Z.succ (Z.log2 n)) with (Z.log2 n + 1) in Hl by lia.
  eapply Z.lt_le_trans; [exact Hl|].
  apply Z.pow_le_mono_l. lia.
Qed.

Lemma nat_digits_val n : 0 <= n -> digits_val (nat_digits n) = n.
Proof.
  intros Hn. unfold nat_digits. apply digits_fuel_val.
  split; [done|]. by apply nat_digits_fuel.
Qed.

Lemma nat_digits_digits n : all_digits (nat_digits n).
Proof. apply digits_fuel_digits. Qed.

Lemma nat_digits_head n :
  0 < n -> exists d ds, nat_digits n = d :: ds /\ 49 <= d <= 57.
Proof.
  intros Hn. unfold nat_digits. apply digits_fuel_head.
  split; [done|]. apply nat_digits_fuel. lia.
Qed.

Lemma nat_digits_nonempty n : nat_digits n <> [].
Proof.
  unfold nat_digits. simpl. destruct (n <? 10); [done|].
  rewrite digits_fuel_acc. by destruct (digits_fuel _ _ []).
Qed.

(** The scanner's digit runs. *)
Definition no_digit_ahead (rest : pystr) : Prop :=
  match rest with
  | c :: _ => is_digit c = false
  | [] => True
  end.

Lemma span_digits_app ds rest :
  all_digits ds -> no_digit_ahead rest -> span_digits (ds ++ rest) = (ds, rest).
Proof.
  intros Hd Hr. induction Hd as [|d ds Hx Hd IH]; cbn -[is_digit].
  - destruct rest as [|c r]; [done|]. cbn -[is_digit] in *. by rewrite Hr.
  - by rewrite Hx, IH.
Qed.

Lemma span_digits_all s ds r : span_digits s = (ds, r) -> all_digits ds /\ s = ds ++ r.
Proof.
  revert ds r. induction s as [|c s IH]; intros ds r H; cbn -[is_digit] in H.
  - inversion H; subst. split; [constructor|done].
  - destruct (is_digit c) eqn:E.
    + destruct (span_digits s) as [ds' r'] eqn:E'. inversion H; subst.
      destruct (IH _ _ eq_refl) as [H1 ->]. split; [by constructor|done].
    + inversion H; subst. split; [constructor|done].
Qed.

(** ** Strings: [scanstring] reads what [encode_basestring_ascii] writes *)

(** A string the decoder can produce: code points in range, and no high
    surrogate directly followed by a low one (the decoder joins such a pair
    into one character). *)
Fixpoint str_ok (s : pystr) : bool :=
  match s with
  | [] => true
  | c :: s' =>
      (0 <=? c) && (c <=? 1114111)
      && negb (is_high_surrogate c
               && match s' with c2 :: _ => is_low_surrogate c2 | [] => false end)
      && str_ok s'
  end.

Lemma hex_val_hex_digit d : 0 <= d < 16 -> hex_val (hex_digit d) = Some d.
Proof.
  intros Hd. unfold hex_val, hex_digit.
  destruct (d <? 10) eqn:E.
  - apply Z.ltb_lt in E.
    replace ((48 <=? 48 + d) && (48 + d <=? 57)) with true by lia.
    f_equal. lia.
  - apply Z.ltb_ge in E.
    replace ((48 <=? 87 + d) && (87 + d <=? 57)) with false by lia.
    replace ((97 <=? 87 + d) && (87 + d <=? 102)) with true by lia.
    f_equal. lia.
Qed.

Lemma hex4_hex4_of c :
  0 <= c < 65536 ->
  hex4 (hex_digit (c / 4096 mod 16)) (hex_digit (c / 256 mod 16))
       (hex_digit (c / 16 mod 16)) (hex_digit (c mod 16)) = Some c.
Proof.
  intros Hc. unfold hex4.
  rewrite !hex_val_hex_digit by (apply Z.mod_pos_bound; lia).
  f_equal. Z.div_mod_to_equations. lia.
Qed.

Lemma land_shifted a x : 0 <= x < 1024 -> Z.land (a * 1024) x = 0.
Proof.
  intros Hx. apply Z.bits_inj'. intros n Hn.
  rewrite Z.land_spec, Z.bits_0.
  destruct (Z.lt_ge_cases n 10) as [Hl|Hg].
  - change 1024 with (2 ^ 10). rewrite Z.mul_pow2_bits_low by lia. reflexivity.
  - destruct (Z.eq_dec x 0) as [->|Hz].
    + rewrite Z.bits_0. apply andb_false_r.
    + rewrite (Z.bits_above_log2 x n); [apply andb_false_r|lia|].
      assert (Z.log2 x < 10); [|lia].
      apply Z.log2_lt_pow2; lia.
Qed.

Lemma lor_shifted a x : 0 <= x < 1024 -> Z.lor (a * 1024) x = a * 1024 + x.
Proof.
  intros Hx. pose proof (Z.add_lor_land (a * 1024) x) as H.
  rewrite land_shifted in H by done. lia.
Qed.

Lemma surrogate_high n :
  0 <= n < 1048576 ->
  Z.lor 55296 (Z.land (Z.shiftr n 10) 1023) = 55296 + n / 1024.
Proof.
  intros Hn. rewrite Z.shiftr_div_pow2 by lia. change (2 ^ 10) with 1024.
  change 1023 with (Z.ones 10). rewrite Z.land_ones by lia. change (2 ^ 10) with 1024.
  assert (0 <= n / 1024 < 1024) by (Z.div_mod_to_equations; lia).
  rewrite Z.mod_small by lia.
  apply (lor_shifted 54). lia.
Qed.

Lemma surrogate_low n :
  0 <= n -> Z.lor 56320 (Z.land n 1023) = 56320 + n mod 1024.
Proof.
  intros Hn. change 1023 with (Z.ones 10). rewrite Z.land_ones by lia.
  change (2 ^ 10) with 1024.
  apply (lor_shifted 55). apply Z.mod_pos_bound. lia.
Qed.

(** Unfolding [scanstring] on each kind of input. *)

Lemma scanstring_quote b i r acc :
  scanstring b i (dquote :: r) acc = Found (rev acc) (S i) r.
Proof. reflexivity. Qed.

Lemma scanstring_simple b i c1 e r acc :
  simple_escape c1 = Some e ->
  scanstring b i (backslash :: c1 :: r) acc = scanstring b (i + 2) r (e :: acc).
Proof.
  intros H. cbn [scanstring].
  change (backslash =? dquote) with false. change (backslash =? backslash) with true.
  cbv iota.
  destruct (c1 =? 117) eqn:E.
  - apply Z.eqb_eq in E. subst. discriminate.
  - by rewrite H.
Qed.

Lemma scanstring_literal b i c r acc :
  c <> dquote -> c <> backslash -> 31 < c ->
  scanstring b i (c :: r) acc = scanstring b (S i) r (c :: acc).
Proof.
  intros H1 H2 H3. cbn [scanstring].
  apply Z.eqb_neq in H1, H2. rewrite H1, H2.
  replace (c <=? 31) with false by lia. reflexivity.
Qed.

Lemma scanstring_u b i h1 h2 h3 h4 u r acc :
  hex4 h1 h2 h3 h4 = Some u ->
  scanstring b i (backslash :: 117 :: h1 :: h2 :: h3 :: h4 :: r) acc
  = if is_high_surrogate u then
      after_high r (scanstring b (i + 6) r (u :: acc))
        (Fail (Errmsg "Invalid \uXXXX escape" (i + 7)))
        (fun u2 s4 =>
           if is_low_surrogate u2 then
             scanstring b (i + 12) s4 (join_surrogates u u2 :: acc)
           else scanstring b (i + 6) r (u :: acc))
    else scanstring b (i + 6) r (u :: acc).
Proof.
  intros H. cbn [scanstring].
  change (backslash =? dquote) with false. change (backslash =? backslash) with true.
  change (117 =? 117) with true. cbv iota. rewrite H. reflexivity.
Qed.

Lemma after_high_u {A : Type} h1 h2 h3 h4 u r (single bad : A) pair :
  hex4 h1 h2 h3 h4 = Some u ->
  after_high (backslash :: 117 :: h1 :: h2 :: h3 :: h4 :: r) single bad pair = pair u r.
Proof. intros H. unfold after_high. simpl. by rewrite H. Qed.

Lemma after_high_other {A : Type} c s (single bad : A) pair :
  c <> backslash -> after_high (c :: s) single bad pair = single.
Proof.
  intros H. apply Z.eqb_neq in H. unfold after_high.
  destruct s as [|? [|? [|? [|? [|? ?]]]]]; try reflexivity.
  by rewrite H.
Qed.

Lemma after_high_simple {A : Type} c s (single bad : A) pair :
  c <> 117 -> after_high (backslash :: c :: s) single bad pair = single.
Proof.
  intros H. apply Z.eqb_neq in H. unfold after_high.
  destruct s as [|? [|? [|? [|? ?]]]]; try reflexivity.
  rewrite H. by rewrite andb_false_r.
Qed.

(** The classes of characters of the encoder. *)
Inductive escape_kind (c : Z) : pystr -> Prop :=
| EscSimple c1 : simple_escape c1 = Some c -> c1 <> 117 ->
                 escape_kind c [backslash; c1]
| EscLiteral : c <> dquote -> c <> backslash -> 31 < c -> escape_kind c [c]
| EscU : 0 <= c < 65536 -> escape_kind c (u_escape c)
| EscPair : 65536 <= c <= 1114111 ->
            escape_kind c (u_escape (55296 + (c - 65536) / 1024)
                           ++ u_escape (56320 + (c - 65536) mod 1024)).

Lemma escape_char_kind c : 0 <= c <= 1114111 -> escape_kind c (escape_char c).
Proof.
  intros Hc. unfold escape_char.
  destruct (c =? dquote) eqn:E1; [apply Z.eqb_eq in E1; subst; by apply (EscSimple _ dquote)|].
  destruct (c =? backslash) eqn:E2;
    [apply Z.eqb_eq in E2; subst; by apply (EscSimple _ backslash)|].
  destruct (c =? 10) eqn:E3; [apply Z.eqb_eq in E3; subst; by apply (EscSimple _ 110)|].
  destruct (c =? 13) eqn:E4; [apply Z.eqb_eq in E4; subst; by apply (EscSimple _ 114)|].
  destruct (c =? 9) eqn:E5; [apply Z.eqb_eq in E5; subst; by apply (EscSimple _ 116)|].
  destruct (c =? 8) eqn:E6; [apply Z.eqb_eq in E6; subst; by apply (EscSimple _ 98)|].
  destruct (c =? 12) eqn:E7; [apply Z.eqb_eq in E7; subst; by apply (EscSimple _ 102)|].
  apply Z.eqb_neq in E1, E2.
  destruct ((32 <=? c) && (c <=? 126)) eqn:E8; [apply EscLiteral; lia|].
  destruct (c <? 65536) eqn:E9; [apply EscU; lia|].
  rewrite surrogate_high, surrogate_low by lia.
  apply EscPair. lia.
Qed.

Lemma after_high_encoded {A : Type} s rest (single bad : A) pair :
  (forall u2 s4, is_low_surrogate u2 = false -> pair u2 s4 = single) ->
  str_ok s = true ->
  match s with c2 :: _ => is_low_surrogate c2 = false | [] => True end ->
  after_high (flat_map escape_char s ++ dquote :: rest) single bad pair = single.
Proof.
  intros Hpair Hs Hlow. destruct s as [|c2 s'].
  - cbn [flat_map app]. by apply after_high_other.
  - cbn [str_ok] in Hs. cbn [flat_map]. rewrite <- app_assoc.
    apply andb_true_iff in Hs as [Hs _]. apply andb_true_iff in Hs as [Hs _].
    assert (Hc : 0 <= c2 <= 1114111) by lia.
    destruct (escape_char_kind c2 Hc).
    + cbn [app]. by apply after_high_simple.
    + cbn [app]. by apply after_high_other.
    + unfold u_escape, hex4_of. cbn [app].
      rewrite (after_high_u _ _ _ _ c2) by (by apply hex4_hex4_of).
      by apply Hpair.
    + unfold u_escape at 1, hex4_of. cbn [app].
      erewrite after_high_u; [|apply hex4_hex4_of; Z.div_mod_to_equations; lia].
      apply Hpair. unfold is_low_surrogate. Z.div_mod_to_equations. lia.
Qed.

Lemma rev_cons_app {A : Type} (c : A) acc s : rev (c :: acc) ++ s = rev acc ++ c :: s.
Proof. simpl. by rewrite <- app_assoc. Qed.

(** [scanstring] inverts the escaping of [encode_basestring_ascii]. *)
Lemma scanstring_encoded s : forall acc b i rest,
  str_ok s = true ->
  exists next,
    scanstring b i (flat_map escape_char s ++ dquote :: rest) acc
    = Found (rev acc ++ s) next rest.
Proof.
  induction s as [|c s IH]; intros acc b i rest Hs.
  - cbn [flat_map app]. rewrite scanstring_quote, app_nil_r. eauto.
  - cbn [str_ok] in Hs.
    apply andb_true_iff in Hs as [Hs Hs2]. apply andb_true_iff in Hs as [Hc Hsur].
    assert (Hc' : 0 <= c <= 1114111) by lia. clear Hc. rename Hc' into Hc.
    cbn [flat_map]. rewrite <- app_assoc.
    destruct (escape_char_kind c Hc) as [c1 He Hn | H1 H2 H3 | Hu | Hp].
    + cbn [app]. rewrite (scanstring_simple _ _ _ c) by done.
      destruct (IH (c :: acc) b (i + 2)%nat rest Hs2) as [next ->].
      rewrite rev_cons_app. eauto.
    + cbn [app]. rewrite scanstring_literal by done.
      destruct (IH (c :: acc) b (S i) rest Hs2) as [next ->].
      rewrite rev_cons_app. eauto.
    + unfold u_escape, hex4_of. cbn [app].
      rewrite (scanstring_u _ _ _ _ _ _ c) by (by apply hex4_hex4_of).
      destruct (IH (c :: acc) b (i + 6)%nat rest Hs2) as [next Hnext].
      destruct (is_high_surrogate c) eqn:Hh.
      * rewrite after_high_encoded; try done.
        -- rewrite Hnext, rev_cons_app. eauto.
        -- intros u2 s4 ->. reflexivity.
        -- destruct s as [|c2 s']; [done|].
           by destruct (is_low_surrogate c2).
      * rewrite Hnext, rev_cons_app. eauto.
    + unfold u_escape at 1, hex4_of. cbn [app].
      set (n := c - 65536) in *.
      assert (0 <= n / 1024 < 1024) by (subst n; Z.div_mod_to_equations; lia).
      assert (0 <= n mod 1024 < 1024) by (apply Z.mod_pos_bound; lia).
      erewrite scanstring_u; [|apply hex4_hex4_of; lia].
      replace (is_high_surrogate (55296 + n / 1024)) with true
        by (unfold is_high_surrogate; lia).
      unfold u_escape, hex4_of. cbn [app].
      erewrite after_high_u; [|apply hex4_hex4_of; lia].
      replace (is_low_surrogate (56320 + n mod 1024)) with true
        by (unfold is_low_surrogate; lia).
      replace (join_surrogates (55296 + n / 1024) (56320 + n mod 1024)) with c
        by (unfold join_surrogates; subst n; Z.div_mod_to_equations; lia).
      destruct (IH (c :: acc) b (i + 12)%nat rest Hs2) as [next ->].
      rewrite rev_cons_app. eauto.
Qed.

(** ** Floats: [float] reads what [repr] writes *)

(** The shape of a literal of the JSON grammar. *)
Definition int_part_ok (ds : pystr) : Prop :=
  match ds with
  | [] => False
  | d :: ds' => all_digits (d :: ds') /\ (d = 48 -> ds' = [])
  end.

Definition lit_wf (l : PyFloat.lit) : Prop :=
  int_part_ok (PyFloat.lit_int l)
  /\ all_digits (PyFloat.lit_frac l)
  /\ match PyFloat.lit_exp l with
     | Some (_, ds) => all_digits ds /\ ds <> []
     | None => PyFloat.lit_frac l <> []
     end.

Module PyFloatFacts.
Import PyFloat.

(** *** Comparing a ratio with a power of two *)

Lemma pow2_pos x : 0 <= x -> 0 < 2 ^ x.
Proof. intros. apply Z.pow_pos_nonneg; lia. Qed.

Lemma ratio_ge_pow2_iff a b l K :
  0 <= K -> 0 <= l + K ->
  ratio_ge_pow2 a b l = true <-> b * 2 ^ (l + K) <= a * 2 ^ K.
Proof.
  intros HK HlK. unfold ratio_ge_pow2. rewrite Z.leb_le.
  destruct (Z.le_gt_cases 0 l) as [Hl|Hl].
  - rewrite (Z.max_r 0 l), (Z.max_l 0 (- l)) by lia.
    rewrite Z.pow_add_r by lia. change (2 ^ 0) with 1.
    rewrite (Z.mul_le_mono_pos_r (b * 2 ^ l) (a * 1) (2 ^ K)) by (by apply pow2_pos).
    lia.
  - rewrite (Z.max_l 0 l), (Z.max_r 0 (- l)) by lia. change (2 ^ 0) with 1.
    replace K with (- l + (l + K)) at 2 by lia.
    rewrite (Z.pow_add_r 2 (- l) (l + K)) by lia.
    rewrite (Z.mul_le_mono_pos_r (b * 1) (a * 2 ^ (- l)) (2 ^ (l + K)))
      by (by apply pow2_pos).
    lia.
Qed.

Lemma ratio_ge_pow2_mono a b l l' :
  0 < b -> l' <= l -> ratio_ge_pow2 a b l = true -> ratio_ge_pow2 a b l' = true.
Proof.
  intros Hb Hl H.
  set (K := Z.abs l + Z.abs l').
  rewrite (ratio_ge_pow2_iff a b l K) in H by lia.
  rewrite (ratio_ge_pow2_iff a b l' K) by lia.
  eapply Z.le_trans; [|exact H].
  apply Z.mul_le_mono_nonneg_l; [lia|].
  apply Z.pow_le_mono_r; lia.
Qed.

Lemma ratio_log2_spec a b :
  0 < a -> 0 < b ->
  ratio_ge_pow2 a b (ratio_log2 a b) = true
  /\ ratio_ge_pow2 a b (ratio_log2 a b + 1) = false.
Proof.
  intros Ha Hb. unfold ratio_log2.
  set (la := Z.log2 a). set (lb := Z.log2 b).
  pose proof (Z.log2_nonneg a). pose proof (Z.log2_nonneg b).
  destruct (Z.log2_spec a Ha) as [Ha1 Ha2]. destruct (Z.log2_spec b Hb) as [Hb1 Hb2].
  fold la in Ha1, Ha2. fold lb in Hb1, Hb2.
  replace (Z.succ la) with (la + 1) in Ha2 by lia.
  replace (Z.succ lb) with (lb + 1) in Hb2 by lia.
  set (K := lb + 2).
  assert (Hlow : ratio_ge_pow2 a b (la - lb - 1) = true).
  { rewrite (ratio_ge_pow2_iff a b _ K) by (subst K; lia).
    replace (la - lb - 1 + K) with (la + 1) by (subst K; lia).
    replace K with (lb + 1 + 1) by (subst K; lia).
    rewrite !Z.pow_add_r in * by lia. change (2 ^ 1) with 2 in *. nia. }
  assert (Hhigh : ratio_ge_pow2 a b (la - lb + 1) = false).
  { apply not_true_is_false. rewrite (ratio_ge_pow2_iff a b _ K) by (subst K; lia).
    replace (la - lb + 1 + K) with (la + 1 + 1 + 1) by (subst K; lia).
    replace K with (lb + 1 + 1) by (subst K; lia).
    rewrite !Z.pow_add_r in * by lia. change (2 ^ 1) with 2 in *. nia. }
  destruct (ratio_ge_pow2 a b (la - lb)) eqn:E.
  - done.
  - replace (la - lb - 1 + 1) with (la - lb) by lia. done.
Qed.

Lemma ratio_log2_unique a b l :
  0 < a -> 0 < b ->
  ratio_ge_pow2 a b l = true -> ratio_ge_pow2 a b (l + 1) = false ->
  ratio_log2 a b = l.
Proof.
  intros Ha Hb H1 H2. destruct (ratio_log2_spec a b Ha Hb) as [H3 H4].
  destruct (Z.lt_trichotomy (ratio_log2 a b) l) as [Hlt|[->|Hgt]]; [|done|].
  - rewrite (ratio_ge_pow2_mono a b l (ratio_log2 a b + 1)) in H4; [done|lia..|done].
  - rewrite (ratio_ge_pow2_mono a b (ratio_log2 a b) (l + 1)) in H2; [done|lia..|done].
Qed.

(** With [num / den] the ratio scaled by [2^-e]: the ratio is at least
    [2^(e+t)] exactly when [num / den] is at least [2^t]. *)
Lemma ratio_ge_scaled a b e t :
  0 <= t ->
  ratio_ge_pow2 a b (e + t) = true
  <-> b * 2 ^ Z.max 0 e * 2 ^ t <= a * 2 ^ Z.max 0 (- e).
Proof.
  intros Ht. rewrite (ratio_ge_pow2_iff a b (e + t) (Z.max 0 (- e))) by lia.
  replace (e + t + Z.max 0 (- e)) with (Z.max 0 e + t) by lia.
  rewrite Z.pow_add_r by lia. lia.
Qed.

(** *** [round_ratio] returns canonical values *)

Lemma round_ratio_canonical neg a b :
  0 < a -> 0 < b -> canonical (round_ratio neg a b) = true.
Proof.
  intros Ha Hb. unfold round_ratio.
  destruct (ratio_log2_spec a b Ha Hb) as [HL1 HL2].
  set (L := ratio_log2 a b) in *.
  set (e := Z.max emin (L - 52)).
  set (num := a * 2 ^ Z.max 0 (- e)). set (den := b * 2 ^ Z.max 0 e).
  assert (Hden : 0 < den).
  { subst den. pose proof (pow2_pos (Z.max 0 e) ltac:(lia)). nia. }
  assert (Hnum : 0 < num).
  { subst num. pose proof (pow2_pos (Z.max 0 (- e)) ltac:(lia)). nia. }
  set (q := num / den). set (r := num mod den).
  assert (Hq0 : 0 <= q) by (apply Z.div_pos; lia).
  assert (Hq1 : q < 2 ^ 53).
  { apply Z.div_lt_upper_bound; [done|].
    assert (H : ratio_ge_pow2 a b (e + 53) = false).
    { destruct (ratio_ge_pow2 a b (e + 53)) eqn:E; [|done].
      rewrite (ratio_ge_pow2_mono a b (e + 53) (L + 1)) in HL2; [done|done|lia|done]. }
    apply not_true_iff_false in H. rewrite ratio_ge_scaled in H by lia.
    fold den num in H. lia. }
  assert (Hq2 : emin < e -> 2 ^ 52 <= q).
  { intros He. apply Z.div_le_lower_bound; [done|].
    assert (H : ratio_ge_pow2 a b (e + 52) = true).
    { replace (e + 52) with L by lia. done. }
    rewrite ratio_ge_scaled in H by lia. fold den num in H. lia. }
  set (q' := if (den <? 2 * r) || ((den =? 2 * r) && Z.odd q) then q + 1 else q).
  assert (Hq' : q <= q' <= q + 1) by (subst q'; destruct (_ || _); lia).
  destruct (q' =? 2 ^ 53) eqn:E53.
  - destruct (emax <? e + 1) eqn:Ee; [done|]. cbn [canonical].
    unfold emin, emax in *. lia.
  - destruct (emax <? e) eqn:Ee; [done|]. cbn [canonical].
    apply Z.eqb_neq in E53.
    destruct (Z.eq_dec e emin) as [Hem|Hem].
    + unfold emin, emax in *. lia.
    + assert (emin < e) by lia. specialize (Hq2 ltac:(done)).
      unfold emin, emax in *. lia.
Qed.

(** *** [round_ratio] is exact on binary64 values *)

Lemma round_ratio_exact neg a b m e :
  0 < a -> 0 < b -> 0 < m ->
  canonical (Finite neg m e) = true ->
  a * 2 ^ Z.max 0 (- e) = m * (b * 2 ^ Z.max 0 e) ->
  round_ratio neg a b = Finite neg m e.
Proof.
  intros Ha Hb Hm Hc Heq. cbn [canonical] in Hc.
  assert (Hm53 : m < 2 ^ 53) by lia.
  assert (He : emin <= e <= emax) by lia.
  assert (Hnorm : 2 ^ 52 <= m \/ e = emin) by lia.
  clear Hc.
  set (den := b * 2 ^ Z.max 0 e) in *.
  assert (Hden : 0 < den).
  { subst den. pose proof (pow2_pos (Z.max 0 e) ltac:(lia)). nia. }
  set (lm := Z.log2 m). pose proof (Z.log2_nonneg m).
  destruct (Z.log2_spec m Hm) as [Hm1 Hm2]. fold lm in Hm1, Hm2.
  replace (Z.succ lm) with (lm + 1) in Hm2 by lia.
  assert (Hlm : lm <= 52).
  { destruct (Z.le_gt_cases lm 52); [done|].
    assert (2 ^ 53 <= 2 ^ lm) by (apply Z.pow_le_mono_r; lia). lia. }
  assert (HL : ratio_log2 a b = e + lm).
  { apply ratio_log2_unique; try done.
    - rewrite ratio_ge_scaled by lia. fold den. rewrite Heq. nia.
    - apply not_true_is_false. replace (e + lm + 1) with (e + (lm + 1)) by lia.
      rewrite ratio_ge_scaled by lia. fold den. rewrite Heq. nia. }
  assert (Hec : Z.max emin (ratio_log2 a b - 52) = e).
  { rewrite HL. destruct Hnorm as [Hn| ->].
    - assert (lm = 52); [|lia].
      destruct (Z.le_gt_cases 52 lm); [lia|].
      assert (2 ^ (lm + 1) <= 2 ^ 52) by (apply Z.pow_le_mono_r; lia). lia.
    - destruct (Z.le_gt_cases 52 lm); lia. }
  unfold round_ratio. rewrite Hec. fold den. rewrite Heq.
  rewrite Z.div_mul, Z_mod_mult by lia.
  replace (den <? 2 * 0) with false by lia.
  replace (den =? 2 * 0) with false by lia. cbn [orb andb].
  replace (m =? 2 ^ 53) with false by lia.
  replace (emax <? e) with false by lia. reflexivity.
Qed.

(** *** [float] of a literal is canonical *)

Lemma of_decimal_canonical neg mant exp10 :
  0 <= mant -> canonical (of_decimal neg mant exp10) = true.
Proof.
  intros Hm. unfold of_decimal.
  destruct (mant =? 0) eqn:E0; [done|]. apply Z.eqb_neq in E0.
  destruct (0 <=? exp10) eqn:Ee.
  - apply round_ratio_canonical; [|lia].
    assert (0 < 10 ^ exp10) by (apply Z.pow_pos_nonneg; lia). nia.
  - apply round_ratio_canonical; [lia|]. apply Z.pow_pos_nonneg; lia.
Qed.

Lemma of_lit_canonical l :
  all_digits (lit_int l) -> all_digits (lit_frac l) ->
  match lit_exp l with Some (_, ds) => all_digits ds | None => True end ->
  canonical (of_lit l) = true.
Proof.
  intros Hi Hf _. unfold of_lit. apply of_decimal_canonical.
  apply digits_val_nonneg. apply Forall_app. by split.
Qed.

(** *** The sign is carried along *)

Definition with_sign (neg : bool) (f : t) : t :=
  match f with
  | Finite _ m e => Finite neg m e
  | Inf _ => Inf neg
  | Nan => Nan
  end.

Lemma round_ratio_sign neg a b : round_ratio neg a b = with_sign neg (round_ratio false a b).
Proof.
  unfold round_ratio.
  destruct (_ =? 2 ^ 53); destruct (emax <? _); reflexivity.
Qed.

Lemma of_decimal_sign neg mant exp10 :
  of_decimal neg mant exp10 = with_sign neg (of_decimal false mant exp10).
Proof.
  unfold of_decimal. destruct (mant =? 0); [done|].
  destruct (0 <=? exp10); apply round_ratio_sign.
Qed.

Lemma candidate_sign neg d s :
  candidate neg d s
  = Lit neg (lit_int (candidate false d s)) (lit_frac (candidate false d s))
        (lit_exp (candidate false d s)).
Proof.
  unfold candidate. destruct (strip_zeros _ d s) as [d' s']. unfold layout.
  destruct (_ || _); [done|]. destruct (_ <=? 0); [done|]. by destruct (_ <? _).
Qed.

Lemma of_lit_candidate_sign neg d s :
  of_lit (candidate neg d s) = with_sign neg (of_lit (candidate false d s)).
Proof.
  rewrite candidate_sign.
  assert (Hneg : lit_neg (candidate false d s) = false).
  { unfold candidate. destruct (strip_zeros _ d s) as [d' s']. unfold layout.
    destruct (_ || _); [done|]. destruct (_ <=? 0); [done|]. by destruct (_ <? _). }
  destruct (candidate false d s) as [ng i f x]. cbn [lit_neg] in Hneg. subst ng.
  unfold of_lit, lit_exp_val. cbn [lit_neg lit_int lit_frac lit_exp].
  apply of_decimal_sign.
Qed.

(** *** What the search returns reads back *)

Lemma shortest_reads_back fuel f a b p : forall n d s,
  shortest fuel f a b p n = Some (d, s) -> reads_back f d s = true.
Proof.
  induction fuel as [|fuel IH]; intros n d s H; [discriminate|].
  cbn [shortest] in H. cbv zeta in H.
  set (s0 := p - n + 1) in *.
  set (lo := a * 10 ^ Z.max 0 (- s0) / (b * 10 ^ Z.max 0 s0)) in *.
  destruct (reads_back f lo s0) eqn:El; destruct (reads_back f (lo + 1) s0) eqn:Eh;
    cbn [andb] in H.
  - destruct (_ || _); by inversion H; subst.
  - by inversion H; subst.
  - by inversion H; subst.
  - by eapply IH.
Qed.

Lemma reads_back_spec neg m e d s :
  reads_back (Finite neg m e) d s = true ->
  0 < d /\ of_lit (candidate neg d s) = Finite neg m e.
Proof.
  unfold reads_back. rewrite (of_lit_candidate_sign neg).
  destruct (of_lit (candidate false d s)) as [| |sg m' e']; try discriminate.
  intros H. split; [lia|]. cbn [with_sign]. f_equal; lia.
Qed.

(** *** The literals [repr] prints have the shape of the grammar *)

Lemma strip_zeros_pos fuel : forall d s d' s',
  0 < d -> strip_zeros fuel d s = (d', s') -> 0 < d'.
Proof.
  induction fuel as [|fuel IH]; intros d s d' s' Hd H; cbn [strip_zeros] in H.
  - by inversion H; subst.
  - destruct ((d mod 10 =? 0) && (0 <? d)) eqn:E; [|by inversion H; subst].
    eapply IH; [|exact H]. apply Z.div_str_pos. Z.div_mod_to_equations. lia.
Qed.

Lemma all_digits_firstn n ds : all_digits ds -> all_digits (firstn n ds).
Proof. intros H. by apply Forall_take. Qed.

Lemma all_digits_skipn n ds : all_digits ds -> all_digits (skipn n ds).
Proof. intros H. by apply Forall_drop. Qed.

Lemma exp_digits_ok x :
  let xs := nat_digits (Z.abs x) in
  all_digits (if Z.abs x <? 10 then 48 :: xs else xs)
  /\ (if Z.abs x <? 10 then 48 :: xs else xs) <> [].
Proof.
  cbv zeta. pose proof (nat_digits_digits (Z.abs x)).
  pose proof (nat_digits_nonempty (Z.abs x)).
  destruct (Z.abs x <? 10); [|done]. split; [by constructor|done].
Qed.

Lemma layout_wf neg d decpt :
  0 < d -> lit_wf (layout neg (nat_digits d) decpt).
Proof.
  intros Hd. destruct (nat_digits_head d Hd) as (d1 & ds & E & Hd1).
  pose proof (nat_digits_digits d) as Hall. rewrite E in *.
  inversion Hall as [|? ? H1 Hds]; subst.
  unfold layout, lit_wf.
  destruct ((decpt <=? -4) || (16 <? decpt)) eqn:Ex.
  { destruct (exp_digits_ok (decpt - 1)) as [Hx1 Hx2]. simpl. split; [|split].
    - split; [by repeat constructor|done].
    - exact Hds.
    - by split. }
  destruct (decpt <=? 0) eqn:E0.
  { cbn [lit_int lit_frac lit_exp int_part_ok]. split; [|split].
    - split; [by repeat constructor|done].
    - apply Forall_app. split; [apply all_digits_zeros|done].
    - by destruct (zeros (- decpt)). }
  destruct (decpt <? Z.of_nat (length (d1 :: ds))) eqn:En.
  { apply Z.leb_gt in E0. apply Z.ltb_lt in En.
    destruct (Z.to_nat decpt) as [|k] eqn:Ek; [lia|].
    cbn [lit_int lit_frac lit_exp]. split; [|split].
    - simpl. split; [|lia]. constructor; [done|]. by apply all_digits_firstn.
    - by apply all_digits_skipn.
    - intros Hnil. apply (f_equal (@length Z)) in Hnil.
      rewrite length_skipn in Hnil. cbn [length] in *. lia. }
  cbn [lit_int lit_frac lit_exp]. split; [|split].
  - simpl. split; [|lia].
    constructor; [done|]. apply Forall_app. split; [done|apply all_digits_zeros].
  - by repeat constructor.
  - done.
Qed.

Lemma candidate_wf neg d s : 0 < d -> lit_wf (candidate neg d s).
Proof.
  intros Hd. unfold candidate.
  destruct (strip_zeros _ d s) as [d' s'] eqn:E.
  apply layout_wf. by eapply strip_zeros_pos.
Qed.

Lemma canonical_zero neg e : canonical (Finite neg 0 e) = true -> e = emin.
Proof. cbn [canonical]. change (2 ^ 52 <=? 0) with false. lia. Qed.

Lemma exact_mantissa_pos m e : 0 < m -> 0 < m * 5 ^ Z.max 0 (- e) * 2 ^ Z.max 0 e.
Proof.
  intros Hm.
  assert (0 < 5 ^ Z.max 0 (- e)) by (apply Z.pow_pos_nonneg; lia).
  pose proof (pow2_pos (Z.max 0 e) ltac:(lia)). nia.
Qed.

(** [repr] prints a literal of the grammar. *)
Lemma repr_lit_wf neg m e :
  canonical (Finite neg m e) = true -> lit_wf (repr_lit neg m e).
Proof.
  intros Hc. unfold repr_lit.
  destruct (m =? 0) eqn:E0.
  { split; [|split]; simpl; try done; [split|]; by repeat constructor. }
  apply Z.eqb_neq in E0.
  assert (Hm : 0 < m) by (cbn [canonical] in Hc; lia).
  destruct (shortest _ _ _ _ _ _) as [[d s]|] eqn:Es.
  - apply shortest_reads_back, reads_back_spec in Es as [Hd _]. by apply candidate_wf.
  - pose proof (exact_mantissa_pos m e Hm) as HD.
    destruct (nat_digits_head _ HD) as (d1 & ds & E & Hd1).
    pose proof (nat_digits_digits (m * 5 ^ Z.max 0 (- e) * 2 ^ Z.max 0 e)) as Hall.
    unfold lit_wf. cbn [lit_int lit_frac lit_exp]. rewrite E in *.
    split; [|split].
    + split; [done|lia].
    + constructor.
    + split; [apply nat_digits_digits|apply nat_digits_nonempty].
Qed.

(** [float(repr(x)) == x], bit for bit. *)
Lemma repr_lit_reads_back neg m e :
  canonical (Finite neg m e) = true ->
  of_lit (repr_lit neg m e) = Finite neg m e.
Proof.
  intros Hc. unfold repr_lit.
  destruct (m =? 0) eqn:E0.
  { apply Z.eqb_eq in E0. subst. rewrite (canonical_zero _ _ Hc). reflexivity. }
  apply Z.eqb_neq in E0.
  assert (Hm : 0 < m) by (cbn [canonical] in Hc; lia).
  destruct (shortest _ _ _ _ _ _) as [[d s]|] eqn:Es.
  { by apply shortest_reads_back, reads_back_spec in Es as [_ ?]. }
  pose proof (exact_mantissa_pos m e Hm) as HD.
  set (D := m * 5 ^ Z.max 0 (- e) * 2 ^ Z.max 0 e) in *.
  unfold of_lit, lit_exp_val. cbn [lit_neg lit_int lit_frac lit_exp].
  rewrite app_nil_r, nat_digits_val by lia. cbn [length].
  assert (Hx : (if Z.min 0 e <? 0 then - digits_val (nat_digits (Z.abs (Z.min 0 e)))
                else digits_val (nat_digits (Z.abs (Z.min 0 e)))) = Z.min 0 e).
  { rewrite nat_digits_val by lia. destruct (Z.min 0 e <? 0) eqn:E; lia. }
  rewrite Hx. clear Hx. unfold of_decimal.
  replace (D =? 0) with false by lia.
  destruct (Z.le_gt_cases 0 e) as [He|He].
  - rewrite (Z.min_l 0 e) by lia. change (0 - Z.of_nat 0) with 0.
    change (0 <=? 0) with true. cbv iota. change (10 ^ 0) with 1.
    apply round_ratio_exact; try done; [lia|].
    subst D. rewrite (Z.max_l 0 (- e)), (Z.max_r 0 e) by lia.
    change (5 ^ 0) with 1. change (2 ^ 0) with 1. lia.
  - rewrite (Z.min_r 0 e) by lia. replace (e - Z.of_nat 0) with e by lia.
    replace (0 <=? e) with false by lia.
    apply round_ratio_exact; try done; [apply Z.pow_pos_nonneg; lia|].
    subst D. rewrite (Z.max_r 0 (- e)), (Z.max_l 0 e) by lia.
    change (2 ^ 0) with 1. change 10 with (5 * 2). rewrite Z.pow_mul_l. lia.
Qed.

End PyFloatFacts.

(** ** Numbers: [_match_number] reads what the encoder writes *)

(** What may follow a number for the scanner to stop there. *)
Definition ends_number (rest : pystr) : Prop :=
  match rest with
  | [] => True
  | c :: _ => is_digit c = false /\ c <> 46 /\ c <> 101 /\ c <> 69
  end.

Lemma ends_number_no_digit r : ends_number r -> no_digit_ahead r.
Proof. destruct r; [done|]. by intros [? _]. Qed.

Lemma scan_frac_none r :
  match r with c :: _ => c <> 46 | [] => True end -> scan_frac r = ([], r).
Proof.
  destruct r as [|p [|d r]]; try done. intros H. unfold scan_frac.
  apply Z.eqb_neq in H. by rewrite H.
Qed.

Lemma scan_frac_some f fs r :
  all_digits (f :: fs) -> no_digit_ahead r ->
  scan_frac (46 :: (f :: fs) ++ r) = (f :: fs, r).
Proof.
  intros H Hr. inversion H; subst. cbn -[is_digit].
  rewrite H2. cbn -[is_digit]. by rewrite span_digits_app.
Qed.

Lemma scan_exp_none r :
  match r with c :: _ => c <> 101 /\ c <> 69 | [] => True end -> scan_exp r = (None, r).
Proof.
  destruct r as [|e r]; [done|]. intros [H1 H2]. unfold scan_exp.
  apply Z.eqb_neq in H1, H2. by rewrite H1, H2.
Qed.

Lemma scan_exp_some (sgn : bool) ds r :
  all_digits ds -> ds <> [] -> no_digit_ahead r ->
  scan_exp (101 :: (if sgn then 45 else 43) :: ds ++ r) = (Some (sgn, ds), r).
Proof.
  intros Hd Hn Hr. unfold scan_exp. cbn -[span_digits].
  destruct sgn; cbn -[span_digits]; rewrite span_digits_app by done;
    by destruct ds.
Qed.

Lemma scan_int_ok ds r :
  int_part_ok ds -> no_digit_ahead r -> scan_int (ds ++ r) = Some (ds, r).
Proof.
  destruct ds as [|d ds]; [done|]. intros [Hd Hz] Hr.
  inversion Hd; subst. apply is_digit_range in H1.
  cbn [app scan_int].
  destruct ((49 <=? d) && (d <=? 57)) eqn:E.
  - by rewrite span_digits_app.
  - assert (d = 48) by lia. subst. rewrite (Hz eq_refl). reflexivity.
Qed.

Lemma scan_sign_digit d s : is_digit d = true -> scan_sign (d :: s) = (false, d :: s).
Proof.
  intros H. apply is_digit_range in H. unfold scan_sign.
  by replace (d =? 45) with false by lia.
Qed.

(** A float literal is read back as the float it denotes. *)
Lemma match_number_render l idx rest :
  lit_wf l -> ends_number rest ->
  exists next,
    match_number idx (PyFloat.render l ++ rest) = Found (PFloat (PyFloat.of_lit l)) next rest.
Proof.
  destruct l as [neg ints frac ex]. intros (Hi & Hf & He) Hr. simpl in Hi, Hf, He.
  pose proof (ends_number_no_digit _ Hr) as Hnd.
  unfold PyFloat.render. cbn [PyFloat.lit_neg PyFloat.lit_int PyFloat.lit_frac PyFloat.lit_exp].
  set (xp := match ex with
             | Some (s, ds) => 101 :: (if s then 45 else 43) :: ds
             | None => []
             end).
  set (fp := match frac with [] => [] | _ :: _ => 46 :: frac end).
  assert (Hxp : scan_exp (xp ++ rest) = (ex, rest)).
  { subst xp. destruct ex as [[s ds]|].
    - destruct He as [He1 He2]. cbn [app]. by apply scan_exp_some.
    - cbn [app]. apply scan_exp_none. destruct rest; [done|]. by destruct Hr as (_ & _ & ? & ?). }
  assert (Hxnd : no_digit_ahead (xp ++ rest)).
  { subst xp. destruct ex as [[s ds]|]; [done|]. exact Hnd. }
  assert (Hfp : scan_frac (fp ++ xp ++ rest) = (frac, xp ++ rest)).
  { subst fp. destruct frac as [|f fs].
    - cbn [app]. apply scan_frac_none. subst xp. destruct ex as [[s ds]|]; [done|].
      cbn [app]. destruct rest; [done|]. by destruct Hr as (_ & ? & _).
    - cbn [app]. by apply scan_frac_some. }
  assert (Hfnd : no_digit_ahead (fp ++ xp ++ rest)).
  { subst fp. destruct frac; [exact Hxnd|done]. }
  assert (Hbody : forall s1 s0,
     scan_sign s0 = (neg, s1) -> s1 = ints ++ fp ++ xp ++ rest ->
     exists next, match_number idx s0
                  = Found (PFloat (PyFloat.of_lit (PyFloat.Lit neg ints frac ex))) next rest).
  { intros s1 s0 Hs ->. unfold match_number. rewrite Hs.
    rewrite scan_int_ok by done. rewrite Hfp, Hxp.
    destruct frac as [|f fs]; [|eauto].
    destruct ex; [eauto|]. by simpl in He. }
  rewrite <- !app_assoc. destruct neg.
  - cbn [app]. eapply Hbody; [reflexivity|]. reflexivity.
  - cbn [app]. eapply Hbody; [|reflexivity].
    destruct ints as [|d ds]; [done|]. destruct Hi as [Hd _]. inversion Hd; subst.
    cbn [app]. by apply scan_sign_digit.
Qed.

(** An integer is read back as itself. *)
Lemma match_number_int z idx rest :
  ends_number rest ->
  exists next, match_number idx (int_repr z ++ rest) = Found (PInt z) next rest.
Proof.
  intros Hr. pose proof (ends_number_no_digit _ Hr) as Hnd.
  assert (Hpos : forall n, 0 <= n -> int_part_ok (nat_digits n)).
  { intros n Hn. destruct (Z.eq_dec n 0) as [->|Hz].
    - split; [repeat constructor|done].
    - destruct (nat_digits_head n ltac:(lia)) as (d & ds & E & Hd).
      pose proof (nat_digits_digits n) as Ha. rewrite E in *.
      split; [done|lia]. }
  assert (Htail : scan_frac rest = ([], rest) /\ scan_exp rest = (None, rest)).
  { split.
    - apply scan_frac_none. destruct rest; [done|]. by destruct Hr as (_ & ? & _).
    - apply scan_exp_none. destruct rest; [done|]. by destruct Hr as (_ & _ & ? & ?). }
  destruct Htail as [Hf He].
  unfold int_repr. destruct (z <? 0) eqn:E.
  - apply Z.ltb_lt in E. cbn [app]. unfold match_number. cbn [scan_sign].
    change (45 =? 45) with true. cbv iota.
    rewrite scan_int_ok by (auto; apply Hpos; lia). rewrite Hf, He.
    rewrite nat_digits_val by lia. replace (- - z) with z by lia. eauto.
  - apply Z.ltb_ge in E. unfold match_number.
    pose proof (Hpos z E) as Hi.
    destruct (nat_digits z) as [|d ds] eqn:Ed; [done|].
    cbn [int_part_ok] in Hi. destruct Hi as [Hd Hz]. inversion Hd; subst.
    cbn [app]. rewrite scan_sign_digit by done.
    change (d :: ds ++ rest) with ((d :: ds) ++ rest).
    rewrite scan_int_ok by (cbn [int_part_ok]; auto). rewrite Hf, He.
    rewrite <- Ed, nat_digits_val by lia. eauto.
Qed.

(** ** Documents: [json.loads] reads what the encoder writes *)

Fixpoint keys_distinct (ks : list pystr) : bool :=
  match ks with
  | [] => true
  | k :: ks' => negb (existsb (pystr_eqb k) ks') && keys_distinct ks'
  end.

(** The values [json.loads] can return: strings as in [str_ok], floats in
    canonical form, dictionaries without repeated keys. *)
Fixpoint pyval_ok (v : pyval) : bool :=
  match v with
  | PStr s => str_ok s
  | PFloat f => PyFloat.canonical f
  | PList l => forallb pyval_ok l
  | PDict d =>
      keys_distinct (List.map fst d)
      && forallb (fun kv => str_ok (fst kv) && pyval_ok (snd kv)) d
  | _ => true
  end.

(** The stack a value needs in [scan_once]. *)
Fixpoint size (v : pyval) : nat :=
  match v with
  | PList l => S (list_sum (List.map (fun x => S (size x)) l))
  | PDict d => S (list_sum (List.map (fun kv => S (size (snd kv))) d))
  | _ => 1
  end.

Lemma pyval_ind2 (P : pyval -> Prop)
  (HNone : P PNone) (HBool : forall b, P (PBool b)) (HInt : forall z, P (PInt z))
  (HFloat : forall f, P (PFloat f)) (HStr : forall s, P (PStr s))
  (HList : forall l, Forall P l -> P (PList l))
  (HDict : forall d, Forall (fun kv => P (snd kv)) d -> P (PDict d)) :
  forall v, P v.
Proof.
  fix IH 1. intros [| b | z | f | s | l | d].
  - apply HNone.
  - apply HBool.
  - apply HInt.
  - apply HFloat.
  - apply HStr.
  - apply HList.
    exact ((fix go (l : list pyval) : Forall P l :=
              match l with
              | [] => @List.Forall_nil _ P
              | x :: l' => @List.Forall_cons _ P x l' (IH x) (go l')
              end) l).
  - apply HDict.
    exact ((fix go (d : list (pystr * pyval)) : Forall (fun kv => P (snd kv)) d :=
              match d with
              | [] => @List.Forall_nil _ _
              | kv :: d' => @List.Forall_cons _ _ kv d' (IH (snd kv)) (go d')
              end) d).
Qed.

(** White space. *)
Definition no_ws_ahead (s : pystr) : Prop :=
  match s with
  | c :: _ => is_ws c = false
  | [] => True
  end.

Lemma skip_ws_none i s : no_ws_ahead s -> skip_ws i s = (i, s).
Proof. destruct s as [|c s]; [done|]. simpl. by intros ->. Qed.

Lemma skip_ws_app w s i :
  Forall (fun c => is_ws c = true) w -> no_ws_ahead s ->
  skip_ws i (w ++ s) = ((i + length w)%nat, s).
Proof.
  intros Hw Hs. revert i. induction Hw as [|c w Hc Hw IH]; intros i.
  - rewrite skip_ws_none by done. simpl. f_equal. lia.
  - cbn [app skip_ws]. rewrite Hc, IH. simpl. f_equal. lia.
Qed.

Lemma newline_indent_ws ind level :
  Forall (fun c => is_ws c = true) (newline_indent ind level).
Proof.
  destruct ind as [n|]; simpl; [|constructor].
  constructor; [done|]. induction (n * level)%nat; constructor; auto.
Qed.

(** How an encoded value starts. *)
Definition value_start (s : pystr) : Prop :=
  match s with
  | c :: _ => is_ws c = false /\ c <> 93 /\ c <> 125 /\ c <> 65279
  | [] => False
  end.

Lemma value_start_no_ws s : value_start s -> no_ws_ahead s.
Proof. destruct s; [done|]. by intros [? _]. Qed.

Lemma value_start_app s t : value_start s -> value_start (s ++ t).
Proof. by destruct s. Qed.

Lemma digit_start d s : is_digit d = true -> value_start (d :: s).
Proof. intros H. apply is_digit_range in H. unfold value_start, is_ws. lia. Qed.

Lemma render_start l : lit_wf l -> value_start (PyFloat.render l).
Proof.
  destruct l as [neg ints frac ex]. intros (Hi & _). simpl in Hi.
  unfold PyFloat.render. simpl. destruct neg; [done|].
  destruct ints as [|d ds]; [done|]. destruct Hi as [Hd _]. inversion Hd; subst.
  cbn [app]. by apply digit_start.
Qed.

Lemma int_repr_start z : value_start (int_repr z).
Proof.
  unfold int_repr. destruct (z <? 0); [done|].
  pose proof (nat_digits_digits z) as H. pose proof (nat_digits_nonempty z).
  destruct (nat_digits z); [done|]. inversion H; subst. by apply digit_start.
Qed.

Lemma floatstr_start f : PyFloat.canonical f = true -> value_start (floatstr f).
Proof.
  destruct f as [|[|]|neg m e]; try done.
  intros H. apply render_start. by apply PyFloatFacts.repr_lit_wf.
Qed.

Lemma iterencode_start ind level v :
  pyval_ok v = true -> value_start (iterencode ind level v).
Proof.
  destruct v as [| [|] | z | f | s | [|x l] | [|kv d]]; try done.
  - intros _. apply int_repr_start.
  - apply floatstr_start.
Qed.

(** Unfolding the scanner. *)

Lemma scan_once_string f idx s :
  scan_once (S f) idx (dquote :: s)
  = match scanstring idx (S idx) s [] with
    | Found str next rest => Found (PStr str) next rest
    | Fail e => Fail e
    end.
Proof. reflexivity. Qed.

Lemma scan_once_list f idx s :
  scan_once (S f) idx (91 :: s)
  = let '(i, r) := skip_ws (S idx) s in
    match r with
    | c' :: r' => if c' =? 93 then Found (PList []) (S i) r' else parse_array f [] i r
    | [] => parse_array f [] i r
    end.
Proof. reflexivity. Qed.

Lemma scan_once_dict f idx s :
  scan_once (S f) idx (123 :: s)
  = let '(i, r) := skip_ws (S idx) s in
    match r with
    | c' :: r' => if c' =? 125 then Found (PDict []) (S i) r' else parse_object f [] i r
    | [] => parse_object f [] i r
    end.
Proof. reflexivity. Qed.

Lemma scan_once_digit f idx d s :
  is_digit d = true -> scan_once (S f) idx (d :: s) = match_number idx (d :: s).
Proof.
  intros H. apply is_digit_range in H. cbn [scan_once].
  replace (d =? dquote) with false by (unfold dquote; lia).
  replace (d =? 123) with false by lia. replace (d =? 91) with false by lia.
  replace (d =? 110) with false by lia. replace (d =? 116) with false by lia.
  replace (d =? 102) with false by lia. replace (d =? 78) with false by lia.
  replace (d =? 73) with false by lia. replace (d =? 45) with false by lia.
  reflexivity.
Qed.

Lemma scan_once_minus f idx d s :
  is_digit d = true -> scan_once (S f) idx (45 :: d :: s) = match_number idx (45 :: d :: s).
Proof.
  intros H. apply is_digit_range in H. cbn [scan_once].
  change (45 =? dquote) with false. cbv iota.
  change (45 =? 123) with false. change (45 =? 91) with false.
  change (45 =? 110) with false. change (45 =? 116) with false.
  change (45 =? 102) with false. change (45 =? 78) with false.
  change (45 =? 73) with false. change (45 =? 45) with true. cbv iota.
  unfold constant. cbn [codes list_ascii_of_string List.map strip_prefix].
  change (code "-" =? 45) with true. cbv iota.
  replace (code "I" =? d) with false; [reflexivity|].
  change (code "I") with 73. lia.
Qed.

Lemma parse_array_step f acc idx s :
  parse_array (S f) acc idx s
  = match scan_once f idx s with
    | Fail e => Fail e
    | Found v i1 r1 =>
        let '(i2, r2) := skip_ws i1 r1 in
        match r2 with
        | c :: r3 =>
            if c =? 93 then Found (PList (rev (v :: acc))) (S i2) r3
            else if c =? 44 then
              let '(i3, r4) := skip_ws (S i2) r3 in
              parse_array f (v :: acc) i3 r4
            else Fail (Errmsg "Expecting ',' delimiter" i2)
        | [] => Fail (Errmsg "Expecting ',' delimiter" i2)
        end
    end.
Proof. reflexivity. Qed.

Lemma parse_object_step f acc idx s1 :
  parse_object (S f) acc idx (dquote :: s1)
  = match scanstring idx (S idx) s1 [] with
    | Fail e => Fail e
    | Found key i1 r1 =>
        let '(i2, r2) := skip_ws i1 r1 in
        match r2 with
        | c :: r3 =>
            if c =? 58 then
              let '(i3, r4) := skip_ws (S i2) r3 in
              match scan_once f i3 r4 with
              | Fail e => Fail e
              | Found v i4 r5 =>
                  let acc' := dict_set key v acc in
                  let '(i5, r6) := skip_ws i4 r5 in
                  match r6 with
                  | c' :: r7 =>
                      if c' =? 125 then Found (PDict acc') (S i5) r7
                      else if c' =? 44 then
                        let '(i6, r8) := skip_ws (S i5) r7 in
                        parse_object f acc' i6 r8
                      else Fail (Errmsg "Expecting ',' delimiter" i5)
                  | [] => Fail (Errmsg "Expecting ',' delimiter" i5)
                  end
              end
            else Fail (Errmsg "Expecting ':' delimiter" i2)
        | [] => Fail (Errmsg "Expecting ':' delimiter" i2)
        end
    end.
Proof. reflexivity. Qed.

(** What follows a value inside a container. *)

Lemma sep_shape ind lv :
  exists w, item_separator ind ++ newline_indent ind lv = 44 :: w
            /\ Forall (fun c => is_ws c = true) w.
Proof.
  destruct ind as [n|].
  - exists (newline_indent (Some n) lv). split; [done|]. apply newline_indent_ws.
  - exists [32]. split; [done|]. by repeat constructor.
Qed.

Lemma close_shape ind lv (c : Z) rest :
  c = 93 \/ c = 125 ->
  ends_number (newline_indent ind lv ++ c :: rest)
  /\ exists i, forall idx, skip_ws idx (newline_indent ind lv ++ c :: rest)
                           = ((idx + i)%nat, c :: rest).
Proof.
  intros Hc. split.
  - destruct ind as [n|]; simpl; [done|]. destruct Hc; subst; done.
  - exists (length (newline_indent ind lv)). intros idx.
    apply skip_ws_app; [apply newline_indent_ws|].
    destruct Hc; subst; done.
Qed.

Definition reads_back_value (ind : option nat) (v : pyval) : Prop :=
  forall level fuel idx rest,
    ends_number rest -> (size v <= fuel)%nat ->
    exists next, scan_once fuel idx (iterencode ind level v ++ rest) = Found v next rest.

Lemma join_cons2 sep (x y : pystr) l :
  join sep (x :: y :: l) = x ++ sep ++ join sep (y :: l).
Proof. reflexivity. Qed.

Lemma join_start sep x l : value_start x -> value_start (join sep (x :: l)).
Proof. destruct l; [done|]. rewrite join_cons2. apply value_start_app. Qed.

Lemma parse_array_encoded ind level l :
  Forall (fun v => pyval_ok v = true /\ reads_back_value ind v) l ->
  l <> [] ->
  forall acc fuel idx rest,
    (list_sum (List.map (fun x => S (size x)) l) <= fuel)%nat ->
    exists next,
      parse_array fuel acc idx
        (join (item_separator ind ++ newline_indent ind (S level))
              (List.map (iterencode ind (S level)) l)
         ++ newline_indent ind level ++ 93 :: rest)
      = Found (PList (rev acc ++ l)) next rest.
Proof.
  induction 1 as [|v l [Hok Hv] Hl IH]; [done|]. intros _ acc fuel idx rest Hfuel.
  cbn [List.map list_sum fold_right] in Hfuel.
  destruct fuel as [|fuel]; [lia|]. rewrite parse_array_step.
  destruct (close_shape ind level 93 rest (or_introl eq_refl)) as [Hend [k Hskip]].
  destruct l as [|v2 l].
  - cbn [List.map join].
    destruct (Hv (S level) fuel idx _ Hend ltac:(lia)) as [i1 ->].
    rewrite Hskip. change (93 =? 93) with true. cbv iota.
    cbn [rev]. eauto.
  - cbn [List.map]. rewrite join_cons2.
    destruct (sep_shape ind (S level)) as (w & Hw & Hws).
    rewrite Hw, <- !app_assoc. cbn [app].
    edestruct (Hv (S level) fuel idx) as [i1 ->]; [|lia|]. { done. }
    rewrite skip_ws_none by done.
    change (44 =? 93) with false. change (44 =? 44) with true. cbv iota.
    rewrite skip_ws_app; [|done|].
    2:{ apply value_start_no_ws. apply value_start_app, join_start.
        inversion Hl; subst. apply iterencode_start. tauto. }
    destruct (IH ltac:(done) (v :: acc) fuel (S i1 + length w)%nat rest) as [next Hn].
    { cbn [List.map list_sum fold_right] in *. lia. }
    cbn [List.map] in Hn. rewrite Hw in Hn. rewrite Hn, rev_cons_app. eauto.
Qed.

Lemma keys_distinct_not_in ks1 k ks2 :
  keys_distinct (ks1 ++ k :: ks2) = true -> ~ In k ks1.
Proof.
  induction ks1 as [|a ks1 IH]; [by intros _ []|].
  cbn [app keys_distinct]. intros H [->|Hin].
  - apply andb_true_iff in H as [H _]. apply negb_true_iff in H.
    assert (existsb (pystr_eqb k) (ks1 ++ k :: ks2) = true); [|congruence].
    apply existsb_exists. exists k. split; [apply in_or_app; right; by left|].
    unfold pystr_eqb. by apply bool_decide_eq_true.
  - apply andb_true_iff in H as [_ H]. by apply IH.
Qed.

Lemma dict_set_fresh k v acc :
  ~ In k (List.map fst acc) -> dict_set k v acc = acc ++ [(k, v)].
Proof.
  induction acc as [|[k' v'] acc IH]; [done|]. cbn [List.map fst In dict_set].
  intros H. unfold pystr_eqb. rewrite bool_decide_eq_false_2 by tauto.
  rewrite IH by tauto. reflexivity.
Qed.

Lemma parse_object_encoded ind level d :
  Forall (fun kv => str_ok (fst kv) = true /\ pyval_ok (snd kv) = true
                    /\ reads_back_value ind (snd kv)) d ->
  d <> [] ->
  forall acc fuel idx rest,
    keys_distinct (List.map fst (acc ++ d)) = true ->
    (list_sum (List.map (fun kv => S (size (snd kv))) d) <= fuel)%nat ->
    exists next,
      parse_object fuel acc idx
        (join (item_separator ind ++ newline_indent ind (S level))
              (List.map (fun kv => encode_basestring_ascii (fst kv) ++ [58; 32]
                                   ++ iterencode ind (S level) (snd kv)) d)
         ++ newline_indent ind level ++ 125 :: rest)
      = Found (PDict (acc ++ d)) next rest.
Proof.
  induction 1 as [|[k v] d (Hk & Hok & Hv) Hd IH]; [done|].
  intros _ acc fuel idx rest Hkeys Hfuel. cbn [fst snd] in *.
  cbn [List.map list_sum fold_right snd] in Hfuel.
  destruct fuel as [|fuel]; [lia|].
  destruct (close_shape ind level 125 rest (or_intror eq_refl)) as [Hend [j Hskip]].
  assert (Hfresh : dict_set k v acc = acc ++ [(k, v)]).
  { apply dict_set_fresh. rewrite map_app in Hkeys. cbn [List.map fst] in Hkeys.
    by apply keys_distinct_not_in in Hkeys. }
  assert (Hitem : forall tail, ends_number tail ->
    exists next,
      parse_object (S fuel) acc idx
        ((encode_basestring_ascii k ++ [58; 32] ++ iterencode ind (S level) v) ++ tail)
      = (let '(i5, r6) := skip_ws next tail in
         match r6 with
         | c' :: r7 =>
             if c' =? 125 then Found (PDict (acc ++ [(k, v)])) (S i5) r7
             else if c' =? 44 then
               let '(i6, r8) := skip_ws (S i5) r7 in
               parse_object fuel (acc ++ [(k, v)]) i6 r8
             else Fail (Errmsg "Expecting ',' delimiter" i5)
         | [] => Fail (Errmsg "Expecting ',' delimiter" i5)
         end)).
  { intros tail Ht.
    unfold encode_basestring_ascii. cbn [app]. rewrite <- !app_assoc. cbn [app].
    rewrite parse_object_step.
    destruct (scanstring_encoded k [] idx (S idx)
                (58 :: 32 :: iterencode ind (S level) v ++ tail) Hk) as [i1 H1].
    cbn [rev app] in H1. rewrite H1.
    rewrite skip_ws_none by done. change (58 =? 58) with true. cbv iota.
    change (32 :: iterencode ind (S level) v ++ tail)
      with ([32] ++ iterencode ind (S level) v ++ tail).
    rewrite (skip_ws_app [32]); [|by repeat constructor|].
    2:{ apply value_start_no_ws, value_start_app. by apply iterencode_start. }
    edestruct (Hv (S level) fuel) as [i4 Hi4]; [exact Ht|lia|].
    rewrite Hi4, Hfresh. eauto. }
  destruct d as [|kv2 d].
  - cbn [List.map join fst snd].
    destruct (Hitem (newline_indent ind level ++ 125 :: rest) Hend) as [next ->].
    rewrite Hskip. change (125 =? 125) with true. cbv iota. eauto.
  - cbn [List.map fst snd]. rewrite join_cons2.
    destruct (sep_shape ind (S level)) as (w & Hw & Hws).
    rewrite Hw. rewrite <- !app_assoc.
    match goal with |- context [parse_object _ _ _ (_ ++ _ ++ _ ++ ?t)] =>
      destruct (Hitem t) as [next Hn] end; [done|].
    rewrite <- !app_assoc in Hn. rewrite Hn. cbn [app].
    rewrite skip_ws_none by done.
    change (44 =? 125) with false. change (44 =? 44) with true. cbv iota.
    rewrite skip_ws_app; [|done|].
    2:{ apply value_start_no_ws. apply value_start_app.
        apply (join_start _ (encode_basestring_ascii _ ++ _)). done. }
    destruct (IH ltac:(done) (acc ++ [(k, v)]) fuel (S next + length w)%nat rest)
      as [next' Hn'].
    { by rewrite <- app_assoc. }
    { cbn [List.map list_sum fold_right] in *. lia. }
    exists next'. rewrite <- app_assoc in Hn'. rewrite <- Hw. exact Hn'.
Qed.

Lemma forallb_Forall {A : Type} (f : A -> bool) l :
  forallb f l = true -> Forall (fun x => f x = true) l.
Proof.
  induction l as [|x l IH]; [constructor|]. cbn [forallb].
  intros H. apply andb_true_iff in H as [H1 H2]. constructor; auto.
Qed.

(** Every value the decoder can return is read back from its encoding,
    whatever the indentation and whatever follows. *)
Lemma scan_once_encoded ind v : pyval_ok v = true -> reads_back_value ind v.
Proof.
  induction v as [| b | z | f | s | l IHl | d IHd] using pyval_ind2;
    intros Hok level fuel idx rest Hrest Hfuel;
    (destruct fuel as [|fuel]; [simpl in Hfuel; lia|]).
  - simpl. eauto.
  - destruct b; simpl; eauto.
  - cbn [iterencode]. destruct (match_number_int z idx rest Hrest) as [next Hn].
    unfold int_repr in *. destruct (z <? 0).
    + pose proof (nat_digits_digits (- z)) as Hd. pose proof (nat_digits_nonempty (- z)).
      destruct (nat_digits (- z)) as [|d ds]; [done|]. inversion Hd; subst.
      cbn [app] in *. rewrite scan_once_minus by done. eauto.
    + pose proof (nat_digits_digits z) as Hd. pose proof (nat_digits_nonempty z).
      destruct (nat_digits z) as [|d ds]; [done|]. inversion Hd; subst.
      cbn [app] in *. rewrite scan_once_digit by done. eauto.
  - cbn [iterencode pyval_ok] in *. destruct f as [|[|]|neg m e]; try solve [simpl; eauto].
    cbn [floatstr PyFloat.repr].
    pose proof (PyFloatFacts.repr_lit_wf neg m e Hok) as Hwf.
    destruct (match_number_render _ idx rest Hwf Hrest) as [next Hn].
    rewrite (PyFloatFacts.repr_lit_reads_back neg m e Hok) in Hn.
    destruct (PyFloat.repr_lit neg m e) as [ng ints frac ex].
    destruct Hwf as (Hi & _). cbn [PyFloat.lit_int] in Hi.
    destruct ints as [|d ds]; [done|]. destruct Hi as [Hd _]. inversion Hd; subst.
    unfold PyFloat.render in *.
    cbn [PyFloat.lit_neg PyFloat.lit_int PyFloat.lit_frac PyFloat.lit_exp] in *.
    destruct ng; cbn [app] in *.
    + rewrite scan_once_minus by done. eauto.
    + rewrite scan_once_digit by done. eauto.
  - cbn [iterencode pyval_ok] in *. unfold encode_basestring_ascii.
    cbn [app]. rewrite <- app_assoc. cbn [app]. rewrite scan_once_string.
    destruct (scanstring_encoded s [] idx (S idx) rest Hok) as [next ->].
    simpl. eauto.
  - destruct l as [|x l]; [simpl; eauto|].
    cbn [pyval_ok] in Hok. apply forallb_Forall in Hok.
    assert (Hall : Forall (fun v => pyval_ok v = true /\ reads_back_value ind v) (x :: l)).
    { apply Forall_forall. intros v Hv. rewrite Forall_forall in IHl, Hok.
      split; [by apply Hok|]. apply IHl; [done|by apply Hok]. }
    cbn [iterencode]. rewrite <- !app_assoc. cbn [app]. rewrite scan_once_list.
    assert (Hstart : value_start
              (join (item_separator ind ++ newline_indent ind (S level))
                    (List.map (iterencode ind (S level)) (x :: l))
               ++ newline_indent ind level ++ 93 :: rest)).
    { apply value_start_app. apply (join_start _ (iterencode ind (S level) x)).
      apply iterencode_start. inversion Hok; subst. done. }
    rewrite skip_ws_app; [|apply newline_indent_ws|by apply value_start_no_ws].
    destruct (parse_array_encoded ind level (x :: l) Hall ltac:(done) [] fuel
                (S idx + length (newline_indent ind (S level)))%nat rest)
      as [next Hn].
    { cbn [size] in Hfuel. lia. }
    destruct (join _ _ ++ _) as [|c' r'] eqn:E; [done|].
    destruct Hstart as (_ & Hc & _). apply Z.eqb_neq in Hc. rewrite Hc.
    rewrite Hn. cbn [rev app]. eauto.
  - destruct d as [|kv d]; [simpl; eauto|].
    cbn [pyval_ok] in Hok. apply andb_true_iff in Hok as [Hkeys Hok].
    apply forallb_Forall in Hok.
    assert (Hall : Forall (fun kv => str_ok (fst kv) = true /\ pyval_ok (snd kv) = true
                                     /\ reads_back_value ind (snd kv)) (kv :: d)).
    { apply Forall_forall. intros e He. rewrite Forall_forall in IHd, Hok.
      specialize (Hok e He). apply andb_true_iff in Hok as [H1 H2].
      repeat split; [done|done|]. by apply IHd. }
    cbn [iterencode]. rewrite <- !app_assoc. cbn [app]. rewrite scan_once_dict.
    assert (Hstart : value_start
              (join (item_separator ind ++ newline_indent ind (S level))
                    (List.map (fun kv => encode_basestring_ascii (fst kv) ++ [58; 32]
                                         ++ iterencode ind (S level) (snd kv)) (kv :: d))
               ++ newline_indent ind level ++ 125 :: rest)).
    { apply value_start_app.
      apply (join_start _ (encode_basestring_ascii (fst kv) ++ _)). done. }
    rewrite skip_ws_app; [|apply newline_indent_ws|by apply value_start_no_ws].
    destruct (parse_object_encoded ind level (kv :: d) Hall ltac:(done) [] fuel
                (S idx + length (newline_indent ind (S level)))%nat rest)
      as [next Hn].
    { exact Hkeys. }
    { cbn [size] in Hfuel. lia. }
    destruct (join _ _ ++ _) as [|c' r'] eqn:E; [done|].
    destruct Hstart as (_ & _ & Hc & _). apply Z.eqb_neq in Hc. rewrite Hc.
    rewrite Hn. cbn [app]. eauto.
Qed.

(** The fuel [json_loads] supplies is enough. *)

Lemma length_join sep chunks :
  (list_sum (List.map (@length Z) chunks) <= length (join sep chunks))%nat.
Proof.
  induction chunks as [|c [|c2 cs] IH]; cbn [List.map list_sum fold_right join] in *.
  - lia.
  - lia.
  - rewrite !length_app. lia.
Qed.

Lemma value_start_length s : value_start s -> (1 <= length s)%nat.
Proof. destruct s; [done|]. simpl. lia. Qed.

Lemma size_encoded ind v :
  pyval_ok v = true -> forall level, (size v < 2 * length (iterencode ind level v))%nat.
Proof.
  induction v as [| b | z | f | s | l IHl | d IHd] using pyval_ind2;
    intros Hok level;
    try (pose proof (value_start_length _ (iterencode_start ind level _ Hok));
         cbn [size]; lia).
  - destruct l as [|x l]; [simpl; lia|].
    cbn [pyval_ok] in Hok. apply forallb_Forall in Hok.
    cbn [iterencode size]. rewrite !length_app.
    pose proof (length_join (item_separator ind ++ newline_indent ind (S level))
                  (List.map (iterencode ind (S level)) (x :: l))) as Hj.
    assert (Hsum : (list_sum (List.map (fun x => S (size x)) (x :: l))
                    <= 2 * list_sum (List.map (@length Z)
                                       (List.map (iterencode ind (S level)) (x :: l))))%nat).
    { clear Hj. induction (x :: l) as [|y ys IH]; [simpl; lia|].
      inversion IHl as [|? ? Hy IHys]; subst. inversion Hok as [|? ? Hy' Hok']; subst.
      cbn [List.map list_sum fold_right] in *.
      specialize (Hy Hy' (S level)). specialize (IH IHys Hok').
      unfold list_sum in *. lia. }
    unfold list_sum in *. cbn [length]. lia.
  - destruct d as [|kv d]; [simpl; lia|].
    cbn [pyval_ok] in Hok. apply andb_true_iff in Hok as [_ Hok].
    apply forallb_Forall in Hok.
    cbn [iterencode size]. rewrite !length_app.
    pose proof (length_join (item_separator ind ++ newline_indent ind (S level))
                  (List.map (fun kv => encode_basestring_ascii (fst kv) ++ [58; 32]
                                       ++ iterencode ind (S level) (snd kv)) (kv :: d)))
      as Hj.
    assert (Hsum : (list_sum (List.map (fun kv => S (size (snd kv))) (kv :: d))
                    <= 2 * list_sum (List.map (@length Z)
                          (List.map (fun kv => encode_basestring_ascii (fst kv)
                                       ++ [58%Z; 32%Z]
                                       ++ iterencode ind (S level) (snd kv)) (kv :: d))))%nat).
    { clear Hj. induction (kv :: d) as [|y ys IH]; [simpl; lia|].
      inversion IHd as [|? ? Hy IHys]; subst. inversion Hok as [|? ? Hy' Hok']; subst.
      apply andb_true_iff in Hy' as [_ Hy'].
      cbn [List.map list_sum fold_right] in *. rewrite !length_app.
      specialize (Hy Hy' (S level)). specialize (IH IHys Hok').
      unfold list_sum in *. lia. }
    unfold list_sum in *. cbn [length]. lia.
Qed.

(** [json.loads] inverts the encoder, with or without indentation. *)
Theorem loads_encoded ind level v :
  pyval_ok v = true -> json_loads (iterencode ind level v) = Ok v.
Proof.
  intros Hok. unfold json_loads.
  pose proof (iterencode_start ind level v Hok) as Hstart.
  assert (Hbom : starts_with_bom (iterencode ind level v) = false).
  { destruct (iterencode ind level v) as [|c r]; [done|].
    destruct Hstart as (_ & _ & _ & Hc). by apply Z.eqb_neq. }
  rewrite Hbom, skip_ws_none by (by apply value_start_no_ws).
  destruct (scan_once_encoded ind v Hok level (S (2 * length (iterencode ind level v)))
              0%nat [] I) as [next Hn].
  { pose proof (size_encoded ind v Hok level). lia. }
  rewrite app_nil_r in Hn. rewrite Hn. reflexivity.
Qed.

(** ** Bytes and text *)

Definition is_ascii (c : Z) : Prop := 0 <= c < 128.

Lemma code_byte_of c : 0 <= c < 256 -> code (byte_of c) = c.
Proof.
  intros Hc. unfold code, byte_of. rewrite N_ascii_embedding by lia. lia.
Qed.

Lemma code_range a : 0 <= code a < 256.
Proof. unfold code. pose proof (N_ascii_bounded a). lia. Qed.

Lemma codes_bytes_of l : Forall is_ascii l -> codes (bytes_of l) = l.
Proof.
  intros H. unfold codes, bytes_of. rewrite list_ascii_of_string_of_list_ascii.
  induction H as [|c l Hc Hl IH]; [done|]. cbn [List.map].
  rewrite IH, code_byte_of; [done|]. unfold is_ascii in Hc. lia.
Qed.

Lemma length_bytes_of l : String.length (bytes_of l) = length l.
Proof.
  unfold bytes_of. induction l as [|c l IH]; [done|]. simpl. by rewrite IH.
Qed.

Lemma utf8_loop_ascii l : forall fuel obj i acc,
  Forall is_ascii l -> (length l <= fuel)%nat ->
  utf8_loop fuel obj i l acc = Ok (rev acc ++ l).
Proof.
  induction l as [|c l IH]; intros fuel obj i acc H Hf.
  - destruct fuel; simpl; by rewrite app_nil_r.
  - inversion H as [|? ? Hc Hl]; subst. destruct fuel as [|fuel]; [simpl in Hf; lia|].
    cbn [utf8_loop utf8_step]. unfold is_ascii in Hc.
    replace (c <? 128) with true by lia.
    rewrite IH; [|done|simpl in Hf; lia]. by rewrite rev_cons_app.
Qed.

(** Decoding ASCII bytes gives the same characters. *)
Lemma decode_ascii l : Forall is_ascii l -> decode_utf8 (bytes_of l) = Ok l.
Proof.
  intros H. unfold decode_utf8. rewrite codes_bytes_of, length_bytes_of by done.
  by rewrite utf8_loop_ascii.
Qed.

(** The encoder writes ASCII only ([ensure_ascii=True]). *)

Lemma codes_ascii_digits ds : all_digits ds -> Forall is_ascii ds.
Proof.
  intros H. eapply Forall_impl; [exact H|].
  intros c Hc. apply is_digit_range in Hc. unfold is_ascii. lia.
Qed.

Lemma hex_digit_ascii d : 0 <= d < 16 -> is_ascii (hex_digit d).
Proof. intros H. unfold hex_digit, is_ascii. destruct (d <? 10) eqn:E; lia. Qed.

Lemma u_escape_ascii n : Forall is_ascii (u_escape n).
Proof.
  unfold u_escape, hex4_of.
  repeat constructor; try (unfold is_ascii, backslash; lia);
    apply hex_digit_ascii; apply Z.mod_pos_bound; lia.
Qed.

Lemma escape_char_ascii c : Forall is_ascii (escape_char c).
Proof.
  unfold escape_char.
  repeat (match goal with |- context [if ?b then _ else _] => destruct b eqn:? end;
          [try (repeat constructor; unfold is_ascii, backslash, dquote; lia)|]).
  - apply u_escape_ascii.
  - apply Forall_app. split; apply u_escape_ascii.
Qed.

Lemma encode_basestring_ascii_ascii s : Forall is_ascii (encode_basestring_ascii s).
Proof.
  unfold encode_basestring_ascii. constructor; [unfold is_ascii, dquote; lia|].
  apply Forall_app. split.
  - induction s as [|c s IH]; [constructor|]. cbn [flat_map].
    apply Forall_app. split; [apply escape_char_ascii|done].
  - repeat constructor. unfold is_ascii, dquote. lia.
Qed.

Lemma int_repr_ascii z : Forall is_ascii (int_repr z).
Proof.
  unfold int_repr. destruct (z <? 0).
  - constructor; [unfold is_ascii; lia|]. apply codes_ascii_digits, nat_digits_digits.
  - apply codes_ascii_digits, nat_digits_digits.
Qed.

Lemma render_ascii l : lit_wf l -> Forall is_ascii (PyFloat.render l).
Proof.
  destruct l as [neg ints frac ex]. intros (Hi & Hf & He). simpl in Hi, Hf, He.
  unfold PyFloat.render. simpl.
  repeat (apply Forall_app; split).
  - destruct neg; repeat constructor. unfold is_ascii. lia.
  - destruct ints; [done|]. destruct Hi as [Hi _]. by apply codes_ascii_digits.
  - destruct frac; [constructor|]. constructor; [unfold is_ascii; lia|].
    by apply codes_ascii_digits.
  - destruct ex as [[s ds]|]; [|constructor]. destruct He as [He _].
    constructor; [unfold is_ascii; lia|].
    constructor; [destruct s; unfold is_ascii; lia|]. by apply codes_ascii_digits.
Qed.

Lemma codes_literal_ascii s :
  forallb (fun c => (0 <=? c) && (c <? 128)) (codes s) = true -> Forall is_ascii (codes s).
Proof.
  intros H. apply forallb_Forall in H. eapply Forall_impl; [exact H|].
  unfold is_ascii. intros c Hc. simpl in Hc. lia.
Qed.

Lemma floatstr_ascii f : PyFloat.canonical f = true -> Forall is_ascii (floatstr f).
Proof.
  destruct f as [|[|]|neg m e]; intros H; try (by apply codes_literal_ascii).
  apply render_ascii. by apply PyFloatFacts.repr_lit_wf.
Qed.

Lemma newline_indent_ascii ind level : Forall is_ascii (newline_indent ind level).
Proof.
  destruct ind as [n|]; simpl; [|constructor].
  constructor; [unfold is_ascii, newline; lia|].
  induction (n * level)%nat; constructor; [unfold is_ascii; lia|done].
Qed.

Lemma join_ascii sep chunks :
  Forall is_ascii sep -> Forall (Forall is_ascii) chunks -> Forall is_ascii (join sep chunks).
Proof.
  intros Hs H. induction H as [|c cs Hc Hcs IH]; [constructor|].
  destruct cs as [|c2 cs]; [done|]. rewrite join_cons2.
  repeat (apply Forall_app; split); auto.
Qed.

Lemma sep_ascii ind level :
  Forall is_ascii (item_separator ind ++ newline_indent ind level).
Proof.
  apply Forall_app. split; [|apply newline_indent_ascii].
  destruct ind; repeat constructor; unfold is_ascii; lia.
Qed.

Lemma iterencode_ascii ind v :
  pyval_ok v = true -> forall level, Forall is_ascii (iterencode ind level v).
Proof.
  induction v as [| b | z | f | s | l IHl | d IHd] using pyval_ind2; intros Hok level.
  - by apply codes_literal_ascii.
  - destruct b; by apply codes_literal_ascii.
  - apply int_repr_ascii.
  - by apply floatstr_ascii.
  - apply encode_basestring_ascii_ascii.
  - destruct l as [|x l]; [by apply codes_literal_ascii|].
    cbn [pyval_ok] in Hok. apply forallb_Forall in Hok.
    cbn [iterencode]. repeat (apply Forall_app; split).
    + repeat constructor. unfold is_ascii. lia.
    + apply newline_indent_ascii.
    + apply join_ascii; [apply sep_ascii|].
      apply List.Forall_forall. intros c Hc. apply in_map_iff in Hc as (v & <- & Hv).
      rewrite List.Forall_forall in IHl, Hok. apply IHl; auto.
    + apply newline_indent_ascii.
    + repeat constructor. unfold is_ascii. lia.
  - destruct d as [|kv d]; [by apply codes_literal_ascii|].
    cbn [pyval_ok] in Hok. apply andb_true_iff in Hok as [_ Hok].
    apply forallb_Forall in Hok.
    cbn [iterencode]. repeat (apply Forall_app; split).
    + repeat constructor. unfold is_ascii. lia.
    + apply newline_indent_ascii.
    + apply join_ascii; [apply sep_ascii|].
      apply List.Forall_forall. intros c Hc. apply in_map_iff in Hc as (e & <- & He).
      rewrite List.Forall_forall in IHd, Hok. specialize (Hok e He).
      apply andb_true_iff in Hok as [_ Hok].
      repeat (apply Forall_app; split).
      * apply encode_basestring_ascii_ascii.
      * repeat constructor; unfold is_ascii; lia.
      * apply IHd; auto.
    + apply newline_indent_ascii.
    + repeat constructor. unfold is_ascii. lia.
Qed.

(** Writing a document and reading the bytes back gives the document. *)
Theorem parse_body_encoded ind level v :
  pyval_ok v = true -> parse_body (bytes_of (iterencode ind level v)) = Ok v.
Proof.
  intros Hok. unfold parse_body.
  rewrite decode_ascii by (by apply iterencode_ascii).
  by apply loads_encoded.
Qed.

(** The characters of a byte string, read as Latin-1, form a string the
    decoder could have produced. *)
Lemma str_ok_codes s : str_ok (codes s) = true.
Proof.
  unfold codes. induction (list_ascii_of_string s) as [|a l IH]; [done|].
  cbn [List.map str_ok]. rewrite IH. pose proof (code_range a).
  replace (is_high_surrogate (code a)) with false by (unfold is_high_surrogate; lia).
  simpl. lia.
Qed.

(** The body of an error response is a JSON object with the single key
    [error], holding the message. *)
Lemma error_body_parses e :
  parse_body (error_body e) = Ok (PDict [(codes "error", PStr (codes (str_exn e)))]).
Proof.
  unfold error_body, json_dumps. apply parse_body_encoded.
  cbn [pyval_ok List.map fst snd forallb keys_distinct existsb].
  by rewrite !str_ok_codes.
Qed.

(** ** Error messages are not empty *)

Lemma append_nonempty a b : b <> "" -> a +:+ b <> "".
Proof. intros H E. apply H. destruct a; [exact E|discriminate E]. Qed.

Definition raised_by_parse (e : exn) : Prop :=
  match e with
  | UnicodeDecodeError _ _ _ _ | JSONDecodeError _ _ _ => True
  | RecursionError msg => msg <> ""
  | _ => False
  end.

Lemma raised_by_parse_message e : raised_by_parse e -> str_exn e <> "".
Proof.
  destruct e as [| | obj start stop reason | msg doc pos | msg |]; try done.
  - intros _. unfold str_exn. destruct (_ =? _)%nat; by destruct reason.
  - intros _. unfold str_exn. destruct (line_col doc pos 1 1) as [line col].
    by apply append_nonempty.
Qed.

Lemma utf8_step_raises obj i bs e : utf8_step obj i bs = Raise e -> raised_by_parse e.
Proof.
  unfold utf8_step. intros H.
  repeat (match type of H with
          | context [match ?x with _ => _ end] => destruct x
          end; try discriminate);
    by inversion H.
Qed.

Lemma utf8_loop_raises fuel obj : forall i bs acc e,
  utf8_loop fuel obj i bs acc = Raise e -> raised_by_parse e.
Proof.
  induction fuel as [|fuel IH]; intros i bs acc e H.
  - destruct bs; discriminate.
  - destruct bs as [|b bs]; [discriminate|]. cbn [utf8_loop] in H.
    destruct (utf8_step obj i (b :: bs)) as [[[c i'] bs']|e'] eqn:E.
    + by eapply IH.
    + inversion H; subst. by eapply utf8_step_raises.
Qed.

Lemma json_loads_raises doc e : json_loads doc = Raise e -> raised_by_parse e.
Proof.
  unfold json_loads. destruct (starts_with_bom doc); [by inversion 1|].
  destruct (skip_ws 0 doc) as [i0 r0].
  destruct (scan_once _ _ _) as [v i1 r1|[i|msg pos|]].
  - destruct (skip_ws i1 r1) as [i2 [|c r]]; [discriminate|by inversion 1].
  - by inversion 1.
  - by inversion 1.
  - by inversion 1.
Qed.

(** Whatever makes [json.loads(data.decode('utf-8'))] fail, its message is
    not empty. *)
Lemma parse_body_raises data e : parse_body data = Raise e -> str_exn e <> "".
Proof.
  unfold parse_body, decode_utf8. intros H. apply raised_by_parse_message.
  destruct (utf8_loop _ _ _ _ _) as [text|e'] eqn:E.
  - by eapply json_loads_raises.
  - inversion H; subst. by eapply utf8_loop_raises.
Qed.

(** ** What the decoders return *)

(** A Unicode scalar value: a code point that is not a surrogate. *)
Definition scalar (c : Z) : Prop := 0 <= c <= 1114111 /\ ~ (55296 <= c <= 57343).

Definition is_byte (b : Z) : Prop := 0 <= b < 256.

Lemma codes_bytes s : Forall is_byte (codes s).
Proof.
  unfold codes. induction (list_ascii_of_string s); constructor; [apply code_range|done].
Qed.

(** *** UTF-8 decoding yields scalar values *)

Lemma utf8_step_scalar obj i bs c i' bs' :
  Forall is_byte bs ->
  utf8_step obj i bs = Ok (c, i', bs') ->
  scalar c /\ Forall is_byte bs' /\ (length bs' < length bs)%nat.
Proof.
  unfold utf8_step, is_cont. intros Hb H.
  destruct bs as [|b0 r0]; [discriminate|].
  inversion Hb as [|? ? H0 Hr0]; subst.
  destruct (b0 <? 128) eqn:E0.
  { inversion H; subst. unfold scalar, is_byte in *. simpl. repeat split; try done; lia. }
  destruct (b0 <? 194) eqn:E1; [discriminate|].
  destruct (b0 <? 224) eqn:E2.
  { destruct r0 as [|b1 r1]; [discriminate|]. inversion Hr0 as [|? ? H1 Hr1]; subst.
    destruct ((128 <=? b1) && (b1 <? 192)) eqn:C1; [|discriminate].
    inversion H; subst. unfold scalar, is_byte in *. simpl. repeat split; try done; lia. }
  destruct (b0 <? 240) eqn:E3.
  { destruct r0 as [|b1 r1]; [discriminate|]. inversion Hr0 as [|? ? H1 Hr1]; subst.
    destruct (negb ((128 <=? b1) && (b1 <? 192))
              || (if b1 <? 160 then b0 =? 224 else b0 =? 237)) eqn:C1; [discriminate|].
    destruct r1 as [|b2 r2]; [discriminate|]. inversion Hr1 as [|? ? H2 Hr2]; subst.
    destruct ((128 <=? b2) && (b2 <? 192)) eqn:C2; [|discriminate].
    inversion H; subst. unfold scalar, is_byte in *. simpl.
    destruct (b1 <? 160) eqn:C3; repeat split; try done; lia. }
  destruct (b0 <? 245) eqn:E4; [|discriminate].
  destruct r0 as [|b1 r1]; [discriminate|]. inversion Hr0 as [|? ? H1 Hr1]; subst.
  destruct (negb ((128 <=? b1) && (b1 <? 192))
            || (if b1 <? 144 then b0 =? 240 else b0 =? 244)) eqn:C1; [discriminate|].
  destruct r1 as [|b2 r2]; [discriminate|]. inversion Hr1 as [|? ? H2 Hr2]; subst.
  destruct (negb ((128 <=? b2) && (b2 <? 192))) eqn:C2; [discriminate|].
  destruct r2 as [|b3 r3]; [discriminate|]. inversion Hr2 as [|? ? H3 Hr3]; subst.
  destruct ((128 <=? b3) && (b3 <? 192)) eqn:C3; [|discriminate].
  inversion H; subst. unfold scalar, is_byte in *. simpl.
  destruct (b1 <? 144) eqn:C4; repeat split; try done; lia.
Qed.

Lemma utf8_loop_scalar fuel obj : forall i bs acc text,
  Forall is_byte bs -> Forall scalar acc ->
  utf8_loop fuel obj i bs acc = Ok text -> Forall scalar text.
Proof.
  induction fuel as [|fuel IH]; intros i bs acc text Hb Ha H.
  - assert (text = rev acc) as -> by (destruct bs; by inversion H).
    by apply Forall_rev.
  - destruct bs as [|b bs]; [inversion H; subst; by apply Forall_rev|].
    cbn [utf8_loop] in H.
    destruct (utf8_step obj i (b :: bs)) as [[[c i'] bs']|e] eqn:E; [|discriminate].
    destruct (utf8_step_scalar _ _ _ _ _ _ Hb E) as (Hc & Hb' & _).
    eapply IH; [exact Hb'| |exact H]. by constructor.
Qed.

Lemma decode_utf8_scalar b text : decode_utf8 b = Ok text -> Forall scalar text.
Proof.
  unfold decode_utf8. apply utf8_loop_scalar; [apply codes_bytes|constructor].
Qed.

(** [r] is what is left of [s] after reading a prefix. *)
Definition left_of (r s : pystr) : Prop := exists pre, s = pre ++ r.

Lemma left_of_refl s : left_of s s.
Proof. by exists []. Qed.

Lemma left_of_cons c r s : left_of r s -> left_of r (c :: s).
Proof. intros [pre ->]. by exists (c :: pre). Qed.

Lemma left_of_trans a b c : left_of a b -> left_of b c -> left_of a c.
Proof. intros [p ->] [q ->]. exists (q ++ p). by rewrite app_assoc. Qed.

Lemma left_of_Forall (P : Z -> Prop) r s : left_of r s -> Forall P s -> Forall P r.
Proof. intros [pre ->] H. by apply Forall_app in H as [_ H]. Qed.

Lemma left_of_skipn n (s : pystr) : left_of (skipn n s) s.
Proof. exists (firstn n s). by rewrite firstn_skipn. Qed.

(** *** Strings read by [scanstring] *)

Definition in_range (c : Z) : bool := (0 <=? c) && (c <=? 1114111).

Definition head_high (s : pystr) : bool :=
  match s with
  | h :: _ => is_high_surrogate h
  | [] => false
  end.

Definition head_low (s : pystr) : bool :=
  match s with
  | h :: _ => is_low_surrogate h
  | [] => false
  end.

(** [str_ok] on the reversed accumulator. *)
Fixpoint acc_ok (acc : pystr) : bool :=
  match acc with
  | [] => true
  | c :: acc' => in_range c && negb (is_low_surrogate c && head_high acc') && acc_ok acc'
  end.

Lemma str_ok_cons c s :
  str_ok (c :: s) = in_range c && negb (is_high_surrogate c && head_low s) && str_ok s.
Proof. reflexivity. Qed.

Lemma str_ok_rev_app acc : forall s,
  str_ok (rev acc ++ s)
  = acc_ok acc && str_ok s && negb (head_high acc && head_low s).
Proof.
  induction acc as [|c acc IH]; intros s.
  - cbn [rev app acc_ok head_high]. by rewrite andb_true_r.
  - cbn [rev]. rewrite <- app_assoc. cbn [app]. rewrite IH, str_ok_cons.
    cbn [acc_ok head_high head_low].
    destruct (acc_ok acc), (in_range c), (is_high_surrogate c), (is_low_surrogate c),
      (head_high acc), (head_low s), (str_ok s); reflexivity.
Qed.

Lemma str_ok_rev acc : str_ok (rev acc) = acc_ok acc.
Proof.
  rewrite <- (app_nil_r (rev acc)), str_ok_rev_app. cbn [str_ok head_low].
  by rewrite andb_false_r, !andb_true_r.
Qed.

(** A low surrogate escape comes next. *)
Definition low_escape_ahead (s : pystr) : bool :=
  match s with
  | b :: u :: l1 :: l2 :: l3 :: l4 :: _ =>
      (b =? backslash) && (u =? 117)
      && match hex4 l1 l2 l3 l4 with
         | Some u2 => is_low_surrogate u2
         | None => false
         end
  | _ => false
  end.

(** The loop invariant of [scanstring]: the characters read so far form a
    valid string, and if the last one is a high surrogate, the text does not
    go on with the escape of a low one. *)
Definition acc_inv (acc s : pystr) : Prop :=
  acc_ok acc = true /\ (head_high acc = true -> low_escape_ahead s = false).

Lemma acc_inv_push c acc s s' :
  acc_inv acc s ->
  in_range c = true ->
  (is_low_surrogate c = true -> low_escape_ahead s = true) ->
  (is_high_surrogate c = true -> low_escape_ahead s' = false) ->
  acc_inv (c :: acc) s'.
Proof.
  intros [Hok Hh] Hr Hl Hn. split; [|exact Hn].
  cbn [acc_ok]. rewrite Hr, Hok.
  destruct (is_low_surrogate c) eqn:El; [|done].
  destruct (head_high acc) eqn:Eh; [|done].
  rewrite Hh in Hl by done. by discriminate Hl.
Qed.

Lemma hex_val_range c d : hex_val c = Some d -> 0 <= d < 16.
Proof.
  unfold hex_val. intros H.
  repeat (match type of H with context [if ?b then _ else _] => destruct b eqn:? end);
    inversion H; lia.
Qed.

Lemma hex4_range h1 h2 h3 h4 u : hex4 h1 h2 h3 h4 = Some u -> 0 <= u < 65536.
Proof.
  unfold hex4. intros H.
  destruct (hex_val h1) as [a|] eqn:E1; [|discriminate].
  destruct (hex_val h2) as [b|] eqn:E2; [|discriminate].
  destruct (hex_val h3) as [c|] eqn:E3; [|discriminate].
  destruct (hex_val h4) as [d|] eqn:E4; [|discriminate].
  apply hex_val_range in E1, E2, E3, E4. inversion H. lia.
Qed.

Lemma simple_escape_range c e : simple_escape c = Some e -> 0 <= e < 128.
Proof.
  unfold simple_escape, dquote, backslash. intros H.
  repeat (match type of H with context [if ?b then _ else _] => destruct b eqn:? end);
    inversion H; lia.
Qed.

Lemma Forall_skipn {A : Type} (P : A -> Prop) n l : Forall P l -> Forall P (skipn n l).
Proof.
  revert l. induction n as [|n IH]; intros l H; [done|].
  destruct l; [done|]. inversion H; subst. simpl. by apply IH.
Qed.

Lemma low_escape_ahead_short s : (length s < 6)%nat -> low_escape_ahead s = false.
Proof.
  destruct s as [|? [|? [|? [|? [|? [|? ?]]]]]]; try done. simpl. lia.
Qed.

Lemma scanstring_ok n : forall s,
  (length s <= n)%nat ->
  forall b i acc r next rest,
    Forall scalar s -> acc_inv acc s ->
    scanstring b i s acc = Found r next rest ->
    str_ok r = true /\ left_of rest s.
Proof.
  induction n as [|n IH]; intros s Hlen b i acc r next rest Hs Hinv H.
  { destruct s; [discriminate|simpl in Hlen; lia]. }
  assert (Hrec : forall k s' acc' i',
            skipn (S k) s = s' -> acc_inv acc' s' ->
            scanstring b i' s' acc' = Found r next rest ->
            str_ok r = true /\ left_of rest s).
  { intros k s' acc' i' <- Hinv' H'.
    destruct (IH (skipn (S k) s)) with (b := b) (i := i') (acc := acc')
      (r := r) (next := next) (rest := rest) as [H1 H2]; try done.
    - rewrite length_skipn. lia.
    - by apply Forall_skipn.
    - split; [done|]. eapply left_of_trans; [exact H2|apply left_of_skipn]. }
  clear IH. destruct s as [|c s1]; [discriminate|]. cbn [scanstring] in H.
  destruct (c =? dquote) eqn:Eq.
  { inversion H; subst. split; [|apply left_of_cons, left_of_refl].
    rewrite str_ok_rev. apply Hinv. }
  destruct (c =? backslash) eqn:Eb.
  - apply Z.eqb_eq in Eb. subst c.
    destruct s1 as [|c1 s2]; [discriminate|].
    destruct (c1 =? 117) eqn:Eu.
    + apply Z.eqb_eq in Eu. subst c1.
      destruct s2 as [|h1 [|h2 [|h3 [|h4 s3]]]]; try discriminate.
      destruct (hex4 h1 h2 h3 h4) as [u|] eqn:Eh; [|discriminate].
      pose proof (hex4_range _ _ _ _ _ Eh) as Hu.
      assert (Hahead : low_escape_ahead (backslash :: 117 :: h1 :: h2 :: h3 :: h4 :: s3)
                       = is_low_surrogate u).
      { cbn [low_escape_ahead]. change (backslash =? backslash) with true.
        change (117 =? 117) with true. by rewrite Eh. }
      assert (Hsingle :
                low_escape_ahead s3 = false \/ is_high_surrogate u = false ->
                scanstring b (i + 6) s3 (u :: acc) = Found r next rest ->
                str_ok r = true /\ left_of rest
                  (backslash :: 117 :: h1 :: h2 :: h3 :: h4 :: s3)).
      { intros Hcase H'.
        eapply (Hrec 5%nat); [reflexivity| |exact H'].
        eapply acc_inv_push; [exact Hinv| | |].
        - unfold in_range. lia.
        - intros Hl. by rewrite Hahead.
        - intros Hh. destruct Hcase as [?|Hc]; [done|congruence]. }
      destruct (is_high_surrogate u) eqn:Ehigh; [|by apply Hsingle; [right|]].
      unfold after_high in H.
      destruct s3 as [|b' [|u' [|l1 [|l2 [|l3 [|l4 s4]]]]]];
        try (apply Hsingle; [left; reflexivity|exact H]).
      destruct ((b' =? backslash) && (u' =? 117)) eqn:Ebu.
      * destruct (hex4 l1 l2 l3 l4) as [u2|] eqn:Eh2; [|discriminate].
        pose proof (hex4_range _ _ _ _ _ Eh2) as Hu2.
        destruct (is_low_surrogate u2) eqn:Elow.
        -- eapply (Hrec 11%nat); [reflexivity| |exact H].
           unfold is_high_surrogate, is_low_surrogate in Ehigh, Elow.
           eapply acc_inv_push; [exact Hinv| | |].
           ++ unfold in_range, join_surrogates. lia.
           ++ unfold is_low_surrogate, join_surrogates. lia.
           ++ unfold is_high_surrogate, join_surrogates. lia.
        -- apply Hsingle; [left|exact H].
           cbn [low_escape_ahead]. by rewrite Ebu, Eh2, Elow.
      * apply Hsingle; [left|exact H]. cbn [low_escape_ahead]. by rewrite Ebu.
    + destruct (simple_escape c1) as [e|] eqn:Ee; [|discriminate].
      pose proof (simple_escape_range _ _ Ee) as He.
      eapply (Hrec 1%nat); [reflexivity| |exact H].
      eapply acc_inv_push; [exact Hinv| | |].
      * unfold in_range. lia.
      * unfold is_low_surrogate. lia.
      * unfold is_high_surrogate. lia.
  - destruct (c <=? 31) eqn:Ec; [discriminate|].
    inversion Hs as [|? ? Hc _]; subst. destruct Hc as [Hc1 Hc2].
    eapply (Hrec 0%nat); [reflexivity| |exact H].
    eapply acc_inv_push; [exact Hinv| | |].
    + unfold in_range. lia.
    + unfold is_low_surrogate. lia.
    + unfold is_high_surrogate. lia.
Qed.

Lemma scanstring_str_ok b i s r next rest :
  Forall scalar s ->
  scanstring b i s [] = Found r next rest ->
  str_ok r = true /\ left_of rest s.
Proof.
  intros Hs H. eapply (scanstring_ok (length s) s); [lia|exact Hs| |exact H].
  by split.
Qed.

(** *** Numbers read by [_match_number] *)

Lemma span_digits_left s ds r : span_digits s = (ds, r) -> all_digits ds /\ left_of r s.
Proof. intros H. apply span_digits_all in H as [H ->]. split; [done|]. by exists ds. Qed.

Lemma skip_ws_left i s : left_of (snd (skip_ws i s)) s.
Proof.
  revert i. induction s as [|c s IH]; intros i; [apply left_of_refl|].
  cbn [skip_ws]. destruct (is_ws c); [|apply left_of_refl].
  apply left_of_cons, IH.
Qed.

Lemma scan_sign_left s neg r : scan_sign s = (neg, r) -> left_of r s.
Proof.
  unfold scan_sign. destruct s as [|c s]; [inversion 1; apply left_of_refl|].
  destruct (c =? 45); inversion 1; subst;
    [apply left_of_cons, left_of_refl|apply left_of_refl].
Qed.

Lemma scan_int_left s ints r : scan_int s = Some (ints, r) -> all_digits ints /\ left_of r s.
Proof.
  unfold scan_int. destruct s as [|c s]; [discriminate|].
  destruct ((49 <=? c) && (c <=? 57)) eqn:E.
  - destruct (span_digits s) as [ds r'] eqn:Es. inversion 1; subst.
    apply span_digits_left in Es as [Hd Hl]. split.
    + constructor; [apply is_digit_range; lia|done].
    + by apply left_of_cons.
  - destruct (c =? 48) eqn:E0; [|discriminate]. inversion 1; subst.
    split; [by repeat constructor|apply left_of_cons, left_of_refl].
Qed.

Lemma scan_frac_left s frac r : scan_frac s = (frac, r) -> all_digits frac /\ left_of r s.
Proof.
  unfold scan_frac. intros H.
  assert (Hnone : (frac, r) = ([], s) -> all_digits frac /\ left_of r s).
  { inversion 1; subst. split; [constructor|apply left_of_refl]. }
  destruct s as [|p [|d s]]; try (apply Hnone; by rewrite <- H).
  destruct ((p =? 46) && is_digit d) eqn:E; [|apply Hnone; by rewrite <- H].
  destruct (span_digits s) as [ds r'] eqn:Es. inversion H; subst.
  apply span_digits_left in Es as [Hd Hl]. apply andb_true_iff in E as [_ E].
  split; [by constructor|]. by do 2 apply left_of_cons.
Qed.

Lemma scan_exp_left s ex r :
  scan_exp s = (ex, r) ->
  match ex with Some (_, ds) => all_digits ds | None => True end /\ left_of r s.
Proof.
  unfold scan_exp. intros H.
  assert (Hnone : (ex, r) = (None, s) ->
                  match ex with Some (_, ds) => all_digits ds | None => True end
                  /\ left_of r s).
  { inversion 1; subst. split; [done|apply left_of_refl]. }
  destruct s as [|e s]; [apply Hnone; by rewrite <- H|].
  destruct ((e =? 101) || (e =? 69)); [|apply Hnone; by rewrite <- H].
  set (sr := match s with
             | c :: r'' =>
                 if c =? 45 then (true, r'') else if c =? 43 then (false, r'') else (false, s)
             | [] => (false, s)
             end) in H.
  assert (Hsr : left_of (snd sr) s).
  { subst sr. destruct s as [|c s']; [apply left_of_refl|].
    destruct (c =? 45); [apply left_of_cons, left_of_refl|].
    destruct (c =? 43); [apply left_of_cons, left_of_refl|apply left_of_refl]. }
  destruct sr as [sgn r'] eqn:Esr. cbn [snd] in Hsr.
  destruct (span_digits r') as [ds r''] eqn:Es.
  apply span_digits_left in Es as [Hd Hl].
  destruct ds as [|d ds]; [apply Hnone; by rewrite <- H|].
  inversion H; subst. split; [done|].
  apply left_of_cons. eapply left_of_trans; eauto.
Qed.

Lemma match_number_ok idx s v next rest :
  match_number idx s = Found v next rest -> pyval_ok v = true /\ left_of rest s.
Proof.
  unfold match_number. intros H.
  destruct (scan_sign s) as [neg s1] eqn:E1. apply scan_sign_left in E1.
  destruct (scan_int s1) as [[ints r1]|] eqn:E2; [|discriminate].
  apply scan_int_left in E2 as [Hi E2].
  destruct (scan_frac r1) as [frac r2] eqn:E3. apply scan_frac_left in E3 as [Hf E3].
  destruct (scan_exp r2) as [ex r3] eqn:E4. apply scan_exp_left in E4 as [He E4].
  assert (Hleft : left_of r3 s) by (repeat (eapply left_of_trans; eauto)).
  assert (Hfl : pyval_ok (PFloat (PyFloat.of_lit (PyFloat.Lit neg ints frac ex))) = true).
  { cbn [pyval_ok]. by apply PyFloatFacts.of_lit_canonical. }
  destruct frac as [|f fs]; [destruct ex|]; inversion H; subst; auto.
Qed.

Lemma strip_prefix_left w s r : strip_prefix w s = Some r -> left_of r s.
Proof.
  revert s. induction w as [|a w IH]; intros s H.
  - inversion H; subst. apply left_of_refl.
  - destruct s as [|c s]; [discriminate|]. cbn [strip_prefix] in H.
    destruct (a =? c); [|discriminate]. apply left_of_cons. by apply IH.
Qed.

Lemma constant_ok w v0 idx s v next rest :
  pyval_ok v0 = true ->
  constant w v0 idx s = Some (Found v next rest) -> pyval_ok v = true /\ left_of rest s.
Proof.
  unfold constant. intros Hok H.
  destruct (strip_prefix (codes w) s) as [r|] eqn:E; [|discriminate].
  inversion H; subst. split; [done|]. by eapply strip_prefix_left.
Qed.

(** *** Documents read by [scan_once] *)

Lemma existsb_eqb_In k ks : existsb (pystr_eqb k) ks = true <-> In k ks.
Proof.
  rewrite existsb_exists. split.
  - intros (x & Hin & Hx). unfold pystr_eqb in Hx. apply bool_decide_eq_true in Hx.
    by subst.
  - intros H. exists k. split; [done|]. unfold pystr_eqb. by apply bool_decide_eq_true.
Qed.

Lemma keys_distinct_NoDup ks : keys_distinct ks = true <-> List.NoDup ks.
Proof.
  induction ks as [|k ks IH]; [split; [constructor|done]|].
  cbn [keys_distinct]. rewrite andb_true_iff, negb_true_iff, IH. split.
  - intros [H1 H2]. constructor; [|done]. rewrite <- existsb_eqb_In. congruence.
  - inversion 1; subst. split; [|done].
    destruct (existsb (pystr_eqb k) ks) eqn:E; [|done]. by apply existsb_eqb_In in E.
Qed.

Definition entries_ok (d : list (pystr * pyval)) : Prop :=
  List.NoDup (List.map fst d)
  /\ Forall (fun kv => str_ok (fst kv) = true /\ pyval_ok (snd kv) = true) d.

Lemma dict_set_keys k v d :
  (In k (List.map fst d) /\ List.map fst (dict_set k v d) = List.map fst d)
  \/ (~ In k (List.map fst d) /\ List.map fst (dict_set k v d) = List.map fst d ++ [k]).
Proof.
  induction d as [|[k' v'] d IH]; [right; split; [by intros []|reflexivity]|].
  cbn [dict_set List.map fst].
  unfold pystr_eqb. destruct (bool_decide (k' = k)) eqn:E.
  - apply bool_decide_eq_true in E. subst. left. split; [by left|done].
  - apply bool_decide_eq_false in E. cbn [List.map fst].
    destruct IH as [[Hin ->]|[Hnin ->]].
    + left. split; [by right|done].
    + right. split; [|done]. intros [?|?]; done.
Qed.

Lemma NoDup_snoc (k : pystr) ks : List.NoDup ks -> ~ In k ks -> List.NoDup (ks ++ [k]).
Proof.
  induction 1 as [|a ks Ha Hnd IH]; intros Hk; [by repeat constructor|].
  cbn [app]. constructor.
  - rewrite in_app_iff. intros [?|[->|[]]]; [done|]. apply Hk. by left.
  - apply IH. intros ?. apply Hk. by right.
Qed.

Lemma dict_set_ok k v d :
  str_ok k = true -> pyval_ok v = true -> entries_ok d -> entries_ok (dict_set k v d).
Proof.
  intros Hk Hv [Hnd Hall]. split.
  - destruct (dict_set_keys k v d) as [[_ ->]|[Hnin ->]]; [done|].
    by apply NoDup_snoc.
  - clear Hnd. induction Hall as [|[k' v'] d Hkv Hd IH]; [by repeat constructor|].
    cbn [dict_set]. destruct (pystr_eqb k' k) eqn:E.
    + unfold pystr_eqb in E. apply bool_decide_eq_true in E. subst.
      constructor; [|done]. by split.
    + by constructor.
Qed.

Lemma entries_ok_pyval d : entries_ok d -> pyval_ok (PDict d) = true.
Proof.
  intros [Hnd Hall]. cbn [pyval_ok]. apply andb_true_iff. split.
  - by apply keys_distinct_NoDup.
  - apply forallb_forall. intros kv Hin. rewrite List.Forall_forall in Hall.
    destruct (Hall kv Hin) as [-> ->]. reflexivity.
Qed.

Lemma list_ok_pyval l : Forall (fun v => pyval_ok v = true) l -> pyval_ok (PList l) = true.
Proof.
  intros H. cbn [pyval_ok]. apply forallb_forall. intros v Hin.
  rewrite List.Forall_forall in H. by apply H.
Qed.

Definition scan_ok (s : pystr) (r : scan pyval) : Prop :=
  match r with
  | Found v _ rest => pyval_ok v = true /\ left_of rest s
  | Fail _ => True
  end.

Lemma scan_ok_left s s' r : left_of s' s -> scan_ok s' r -> scan_ok s r.
Proof.
  destruct r as [v next rest|]; [|done]. intros Hl [Hv Hr].
  split; [done|]. eapply left_of_trans; eauto.
Qed.

Lemma constant_scan_ok w v0 idx s r :
  pyval_ok v0 = true -> constant w v0 idx s = Some r -> scan_ok s r.
Proof.
  unfold constant. intros Hok H.
  destruct (strip_prefix (codes w) s) as [r'|] eqn:E; [|discriminate].
  inversion H; subst. split; [done|]. by eapply strip_prefix_left.
Qed.

Lemma match_number_scan_ok idx s : scan_ok s (match_number idx s).
Proof.
  destruct (match_number idx s) as [v next rest|] eqn:E; [|done].
  by eapply match_number_ok.
Qed.

Lemma skip_ws_eq i s : skip_ws i s = (fst (skip_ws i s), snd (skip_ws i s)).
Proof. by destruct (skip_ws i s). Qed.

(** Whatever the three scanners return is a valid value, and what they
    leave is a suffix of the text. *)
Lemma scanners_ok fuel :
  (forall idx s, Forall scalar s -> scan_ok s (scan_once fuel idx s))
  /\ (forall acc idx s, Forall scalar s -> Forall (fun v => pyval_ok v = true) acc ->
        scan_ok s (parse_array fuel acc idx s))
  /\ (forall acc idx s, Forall scalar s -> entries_ok acc ->
        scan_ok s (parse_object fuel acc idx s)).
Proof.
  induction fuel as [|fuel (IHv & IHa & IHo)]; [by repeat split|].
  repeat split.
  - intros idx s Hs. destruct s as [|c s']; [done|].
    pose proof (Forall_skipn scalar 1 _ Hs) as Hs'. cbn [skipn] in Hs'.
    cbn [scan_once].
    destruct (c =? dquote).
    { destruct (scanstring idx (S idx) s' []) as [str next rest|] eqn:E; [|done].
      apply scanstring_str_ok in E as [Hstr Hrest]; [|done].
      split; [done|by apply left_of_cons]. }
    destruct (c =? 123).
    { rewrite skip_ws_eq. pose proof (skip_ws_left (S idx) s') as Hl.
      set (i := fst (skip_ws (S idx) s')) in *. set (r := snd (skip_ws (S idx) s')) in *.
      assert (Hobj : scan_ok (c :: s') (parse_object fuel [] i r)).
      { eapply scan_ok_left; [apply left_of_cons, Hl|]. apply IHo.
        - by eapply left_of_Forall.
        - split; constructor. }
      destruct r as [|c' r']; [done|]. destruct (c' =? 125); [|done].
      split; [done|]. apply left_of_cons. eapply left_of_trans; [|exact Hl].
      apply left_of_cons, left_of_refl. }
    destruct (c =? 91).
    { rewrite skip_ws_eq. pose proof (skip_ws_left (S idx) s') as Hl.
      set (i := fst (skip_ws (S idx) s')) in *. set (r := snd (skip_ws (S idx) s')) in *.
      assert (Harr : scan_ok (c :: s') (parse_array fuel [] i r)).
      { eapply scan_ok_left; [apply left_of_cons, Hl|]. apply IHa.
        - by eapply left_of_Forall.
        - constructor. }
      destruct r as [|c' r']; [done|]. destruct (c' =? 93); [|done].
      split; [done|]. apply left_of_cons. eapply left_of_trans; [|exact Hl].
      apply left_of_cons, left_of_refl. }
    match goal with |- scan_ok _ (match ?n with Some r => r | None => _ end) =>
      destruct n as [r|] eqn:En end; [|apply match_number_scan_ok].
    repeat (match type of En with (if ?b then _ else _) = _ => destruct b end);
      try discriminate; (eapply constant_scan_ok; [|exact En]; done).
  - intros acc idx s Hs Hacc. rewrite parse_array_step.
    pose proof (IHv idx s Hs) as Hv.
    destruct (scan_once fuel idx s) as [v i1 r1|]; [|done].
    destruct Hv as [Hv Hl1].
    rewrite skip_ws_eq. pose proof (skip_ws_left i1 r1) as Hl2.
    set (i2 := fst (skip_ws i1 r1)) in *. set (r2 := snd (skip_ws i1 r1)) in *.
    destruct r2 as [|c r3]; [done|].
    assert (Hl3 : left_of r3 s).
    { eapply left_of_trans; [|exact Hl1]. eapply left_of_trans; [|exact Hl2].
      apply left_of_cons, left_of_refl. }
    destruct (c =? 93).
    { split; [|done]. apply list_ok_pyval. apply Forall_rev. by constructor. }
    destruct (c =? 44); [|done].
    rewrite skip_ws_eq. pose proof (skip_ws_left (S i2) r3) as Hl4.
    set (i3 := fst (skip_ws (S i2) r3)) in *. set (r4 := snd (skip_ws (S i2) r3)) in *.
    eapply scan_ok_left; [eapply left_of_trans; [exact Hl4|exact Hl3]|].
    apply IHa; [|by constructor].
    eapply left_of_Forall; [|exact Hs]. eapply left_of_trans; eauto.
  - intros acc idx s Hs Hacc. destruct s as [|q s1]; [done|].
    cbn [parse_object].
    pose proof (Forall_skipn scalar 1 _ Hs) as Hs1. cbn [skipn] in Hs1.
    destruct (q =? dquote); [|done].
    destruct (scanstring idx (S idx) s1 []) as [key i1 r1|] eqn:E; [|done].
    apply scanstring_str_ok in E as [Hkey Hl1]; [|done].
    rewrite skip_ws_eq. pose proof (skip_ws_left i1 r1) as Hl2.
    set (i2 := fst (skip_ws i1 r1)) in *. set (r2 := snd (skip_ws i1 r1)) in *.
    destruct r2 as [|c r3]; [done|].
    destruct (c =? 58); [|done].
    rewrite skip_ws_eq. pose proof (skip_ws_left (S i2) r3) as Hl3.
    set (i3 := fst (skip_ws (S i2) r3)) in *. set (r4 := snd (skip_ws (S i2) r3)) in *.
    assert (Hl4 : left_of r4 (q :: s1)).
    { apply left_of_cons. eapply left_of_trans; [|exact Hl1].
      eapply left_of_trans; [|exact Hl2]. apply left_of_cons. exact Hl3. }
    pose proof (IHv i3 r4 (left_of_Forall _ _ _ Hl4 Hs)) as Hv.
    destruct (scan_once fuel i3 r4) as [v i4 r5|]; [|done].
    destruct Hv as [Hv Hl5]. cbv zeta.
    pose proof (dict_set_ok key v acc Hkey Hv Hacc) as Hacc'.
    rewrite skip_ws_eq. pose proof (skip_ws_left i4 r5) as Hl6.
    set (i5 := fst (skip_ws i4 r5)) in *. set (r6 := snd (skip_ws i4 r5)) in *.
    destruct r6 as [|c' r7]; [done|].
    assert (Hl7 : left_of r7 (q :: s1)).
    { eapply left_of_trans; [|exact Hl4]. eapply left_of_trans; [|exact Hl5].
      eapply left_of_trans; [|exact Hl6]. apply left_of_cons, left_of_refl. }
    destruct (c' =? 125).
    { split; [by apply entries_ok_pyval|done]. }
    destruct (c' =? 44); [|done].
    rewrite skip_ws_eq. pose proof (skip_ws_left (S i5) r7) as Hl8.
    set (i6 := fst (skip_ws (S i5) r7)) in *. set (r8 := snd (skip_ws (S i5) r7)) in *.
    eapply scan_ok_left; [eapply left_of_trans; [exact Hl8|exact Hl7]|].
    apply IHo; [|done].
    eapply left_of_Forall; [|exact Hs]. eapply left_of_trans; eauto.
Qed.

(** [json.loads] returns valid values. *)
Theorem json_loads_ok doc v :
  Forall scalar doc -> json_loads doc = Ok v -> pyval_ok v = true.
Proof.
  unfold json_loads. intros Hdoc H.
  destruct (starts_with_bom doc); [discriminate|].
  rewrite skip_ws_eq in H. pose proof (skip_ws_left 0 doc) as Hl.
  set (r0 := snd (skip_ws 0 doc)) in *.
  destruct (scanners_ok (S (2 * length doc))) as (Hv & _ & _).
  specialize (Hv (fst (skip_ws 0 doc)) r0 (left_of_Forall _ _ _ Hl Hdoc)).
  destruct (scan_once _ _ r0) as [v' i1 r1|[]]; try discriminate.
  destruct Hv as [Hv _].
  destruct (skip_ws i1 r1) as [i2 [|c r]]; [|discriminate]. by inversion H; subst.
Qed.

(** The document held by a request body is a valid value. *)
Theorem parse_body_ok data v : parse_body data = Ok v -> pyval_ok v = true.
Proof.
  unfold parse_body. intros H.
  destruct (decode_utf8 data) as [text|] eqn:E; [|discriminate].
  apply decode_utf8_scalar in E. by eapply json_loads_ok.
Qed.
(** * Properties of the handler *)

Lemma saved_twice fs a b : saved (saved fs a) b = saved fs b.
Proof. unfold saved. simpl. by rewrite insert_insert_eq. Qed.

Lemma can_open_saved fs a : can_open (saved fs a) config_path = true.
Proof. unfold can_open, saved. simpl. by rewrite lookup_insert_eq. Qed.

Lemma file_data_saved fs a : file_data (saved fs a) config_path = Some a.
Proof. unfold file_data, saved. simpl. by rewrite lookup_insert_eq. Qed.

Lemma substring_all s : String.substring 0 (String.length s) s = s.
Proof. induction s; simpl; congruence. Qed.

(** Reading as many bytes as the stream holds returns the stream. *)
Lemma rfile_read_all stream :
  rfile_read stream (Z.of_nat (String.length stream)) = Ok stream.
Proof.
  unfold rfile_read.
  destruct (Z.ltb_spec (Z.of_nat (String.length stream)) (-1)); [lia|].
  destruct (Z.eqb_spec (Z.of_nat (String.length stream)) (-1)); [lia|].
  by rewrite Nat2Z.id, substring_all.
Qed.

(** A request whose [Content-Length] is the length of its body delivers the
    whole body. *)
Lemma received_whole_body req :
  py_int (headers_get (headers req) "Content-Length")
  = Ok (Z.of_nat (String.length (rfile req))) ->
  received req = Ok (rfile req).
Proof. intros H. unfold received. rewrite H. apply rfile_read_all. Qed.

(** What [json.loads] returned is written by [json.dump] as a text that
    [json.loads] reads back as the same value. *)
Lemma saved_document_reads_back data config :
  parse_body data = Ok config -> parse_body (config_text config) = Ok config.
Proof.
  intros H. unfold config_text, json_dump_indent2.
  apply parse_body_encoded. by eapply parse_body_ok.
Qed.

(** [do_POST] computes [outcome]. *)
Lemma serve_outcome env req fs : serve env req fs = outcome env req fs.
Proof.
  unfold serve, outcome, do_POST, received.
  destruct (String.eqb (path req) "/save-config"); [|reflexivity].
  unfold bind at 1, lift at 1.
  destruct (py_int _) as [n|e]; [|reflexivity].
  unfold bind at 1, lift at 1.
  destruct (rfile_read _ _) as [post_data|e]; [|reflexivity].
  unfold try_except, parse_body.
  unfold bind at 1, lift at 1.
  destruct (decode_utf8 post_data) as [text|e]; [|reflexivity].
  unfold bind at 1, lift at 1.
  destruct (json_loads text) as [config|e]; [|reflexivity].
  unfold bind at 1, open_w, can_open, open_error, json_dump, file_write, saved, config_text.
  cbn [files fileops wfile entries cwd_writable].
  destruct (entries fs !! config_path) as [[[|] data|]|] eqn:E; try reflexivity.
  - unfold bind at 1. cbn [files fileops wfile entries cwd_writable].
    rewrite lookup_insert_eq, insert_insert_eq. reflexivity.
  - destruct (cwd_writable fs); try reflexivity.
    unfold bind at 1. cbn [files fileops wfile entries cwd_writable].
    rewrite lookup_insert_eq, insert_insert_eq. reflexivity.
Qed.

(** *** Sample data for the closed statements *)

Definition sample_env : environ :=
  Environ "SimpleHTTP/0.6 Python/3.12.0" "Thu, 01 Jan 2026 00:00:00 GMT"
          (fun _ message => message).

(** A writable directory without a config file. *)
Definition empty_dir : filesystem := Filesystem true ∅.

(** A directory in which [config.json] is itself a directory. *)
Definition blocked_dir : filesystem := Filesystem true {[ config_path := Directory ]}.

Definition q : string := bytes_of [dquote].
Definition nl : string := bytes_of [newline].

(** A request that posts [content] to the save route, as an HTTP client sends
    it: [Content-Length] is the number of bytes of the body. *)
Definition post_to (route content : string) : request :=
  Request "POST" route [("Content-Length", nat_str (String.length content))] content.

Definition doc_a1 : string := "{" +:+ q +:+ "a" +:+ q +:+ ":1}".
Definition doc_b2 : string := "{" +:+ q +:+ "b" +:+ q +:+ ":2}".
Definition text_b2 : string :=
  "{" +:+ nl +:+ "  " +:+ q +:+ "b" +:+ q +:+ ": 2" +:+ nl +:+ "}".

(** *** Inversion of a successful save *)

Lemma outcome_200 env req fs r w' :
  outcome env req fs = (r, w') ->
  status (wfile w') = Some 200 ->
  exists post_data config,
    path req = "/save-config"
    /\ received req = Ok post_data
    /\ parse_body post_data = Ok config
    /\ can_open fs config_path = true
    /\ r = Ok tt
    /\ w' = World (saved fs (config_text config)) (json_reply env 200 success_body)
               [OpOpen config_path; OpWrite config_path (config_text config)].
Proof.
  unfold outcome. intros H Hs.
  destruct (String.eqb (path req) "/save-config") eqn:Hp.
  - apply String.eqb_eq in Hp.
    destruct (received req) as [post_data|e] eqn:Hr.
    + destruct (parse_body post_data) as [config|e] eqn:Hb.
      * destruct (can_open fs config_path) eqn:Hc.
        -- inversion H; subst. exists post_data, config. repeat split; auto.
        -- inversion H; subst. discriminate Hs.
      * inversion H; subst. discriminate Hs.
    + inversion H; subst. discriminate Hs.
  - inversion H; subst. discriminate Hs.
Qed.

(** ** C1: a well-formed document is saved *)





(** ** C2: a failure of the [Content-Length] conversion escapes the handler *)



(** C2 (code bug): the conversion [int(self.headers['Content-Length'])] stands
    before the [try] statement.  For a request without the header it raises
    [TypeError]; the exception leaves [do_POST], no status line, header or body
    is written, and no file is touched. *)
Theorem C2_missing_content_length_escapes :
  serve sample_env (Request "POST" "/save-config" [] "{}") empty_dir
  = (Raise (TypeError
       "int() argument must be a string, a bytes-like object or a real number, not 'NoneType'"),
     World empty_dir no_response []).
Proof. reflexivity. Qed.

(** The same for a header that is not a number. *)
Lemma non_numeric_content_length_escapes :
  serve sample_env (Request "POST" "/save-config" [("Content-Length", "abc")] "{}") empty_dir
  = (Raise (ValueError "invalid literal for int() with base 10: 'abc'"),
     World empty_dir no_response []).
Proof. reflexivity. Qed.

(** In general: when reading the body fails, nothing is sent. *)
Lemma unreadable_body_escapes env req fs e :
  path req = "/save-config" ->
  received req = Raise e ->
  serve env req fs = (Raise e, World fs no_response []).
Proof.
  intros Hp Hr. rewrite serve_outcome. unfold outcome. by rewrite Hp, Hr.
Qed.

(** ** C3: a body that is not a JSON document *)



(** ** C4: requests that are not [POST /save-config] *)

(** Counterexample to C4 as stated: a [PUT] request does not match the route,
    and it is answered 501 with an error page, not 404 with an empty body. *)
Lemma C4_put_is_501 :
  String.eqb (command (Request "PUT" "/other" [] "")) "POST" = false
  /\ wfile (snd (handle_one_request sample_env (fun _ => ret tt)
                   (Request "PUT" "/other" [] "") (World empty_dir no_response [])))
     = Response (Some 501)
         [("Server", "SimpleHTTP/0.6 Python/3.12.0");
          ("Date", "Thu, 01 Jan 2026 00:00:00 GMT");
          ("Connection", "close");
          ("Content-Type", "text/html;charset=utf-8");
          ("Content-Length", "26")]
         true "Unsupported method ('PUT')".
Proof. split; reflexivity. Qed.

(** C4 (amended): a POST request to any path other than [/save-config] is
    answered 404 with the two standard headers and an empty body, and no file
    is opened or changed.  A request with a command other than POST, GET and
    HEAD is answered by the base class with status 501. *)
Theorem C4_other_routes env inherited req fs :
  (command req = "POST" -> path req <> "/save-config" ->
   handle_one_request env inherited req (World fs no_response [])
   = (Ok tt, World fs (reply env 404 [] "") []))
  /\ (command req <> "POST" -> command req <> "GET" -> command req <> "HEAD" ->
      status (wfile (snd (handle_one_request env inherited req (World fs no_response []))))
      = Some 501
      /\ files (snd (handle_one_request env inherited req (World fs no_response []))) = fs).
Proof.
  split.
  - intros Hc Hp. unfold handle_one_request. rewrite Hc. simpl.
    change (do_POST env req (World fs no_response [])) with (serve env req fs).
    rewrite serve_outcome. unfold outcome.
    apply String.eqb_neq in Hp. by rewrite Hp.
  - intros H1 H2 H3. unfold handle_one_request.
    apply String.eqb_neq in H1, H2, H3. rewrite H1, H2, H3. simpl. auto.
Qed.

Lemma C4_other_routes_witness :
  handle_one_request sample_env (fun _ => ret tt) (post_to "/other" doc_a1)
    (World empty_dir no_response [])
  = (Ok tt, World empty_dir (reply sample_env 404 [] "") []).
Proof.
  apply (C4_other_routes sample_env (fun _ => ret tt) (post_to "/other" doc_a1) empty_dir).
  - reflexivity.
  - discriminate.
Defined.

(** ** C5: a successful save overwrites the file *)

(** C5: after a successful save the file holds exactly the indented
    serialisation of the document parsed from the request body, whatever it
    held before; saving [{"a":1}] and then [{"b":2}] leaves the serialisation
    of [{"b":2}] alone. *)
Theorem C5_full_overwrite :
  (forall env req fs w',
     serve env req fs = (Ok tt, w') ->
     status (wfile w') = Some 200 ->
     exists post_data config,
       received req = Ok post_data
       /\ parse_body post_data = Ok config
       /\ files w' = saved fs (config_text config)
       /\ config_text config = bytes_of (iterencode (Some 2%nat) 0 config)
       /\ file_data (files w') config_path = Some (config_text config))
  /\ (let w1 := snd (serve sample_env (post_to "/save-config" doc_a1) empty_dir) in
      let w2 := snd (serve sample_env (post_to "/save-config" doc_b2) (files w1)) in
      status (wfile w1) = Some 200
      /\ status (wfile w2) = Some 200
      /\ file_data (files w2) config_path = Some text_b2).
Proof.
  split.
  - intros env req fs w' H Hs. rewrite serve_outcome in H.
    destruct (outcome_200 _ _ _ _ _ H Hs) as (pd & cfg & _ & Hr & Hb & _ & _ & ->).
    exists pd, cfg. simpl. rewrite file_data_saved. auto.
  - vm_compute. auto.
Qed.

Lemma C5_full_overwrite_witness :
  exists post_data config,
    received (post_to "/save-config" doc_b2) = Ok post_data
    /\ parse_body post_data = Ok config
    /\ files (snd (serve sample_env (post_to "/save-config" doc_b2) empty_dir))
       = saved empty_dir (config_text config)
    /\ config_text config = bytes_of (iterencode (Some 2%nat) 0 config)
    /\ file_data (files (snd (serve sample_env (post_to "/save-config" doc_b2) empty_dir)))
         config_path = Some (config_text config).
Proof.
  apply (proj1 C5_full_overwrite sample_env (post_to "/save-config" doc_b2) empty_dir).
  - apply surjective_pairing.
  - vm_compute. reflexivity.
Defined.

(** ** C6: the saved file reads back as the posted document *)

(** C6: when the body of a request is read as the document [D] and the save
    succeeds, parsing the content of [config.json] gives [D] again, whatever
    [D] is made of: objects, arrays, strings, numbers, booleans and null. *)
Theorem C6_round_trip env req fs w' post_data D :
  received req = Ok post_data ->
  parse_body post_data = Ok D ->
  serve env req fs = (Ok tt, w') ->
  status (wfile w') = Some 200 ->
  exists data,
    file_data (files w') config_path = Some data
    /\ parse_body data = Ok D.
Proof.
  intros Hr Hb H Hs. rewrite serve_outcome in H.
  destruct (outcome_200 _ _ _ _ _ H Hs) as (pd & cfg & _ & Hr' & Hb' & _ & _ & ->).
  rewrite Hr in Hr'. injection Hr' as <-.
  rewrite Hb in Hb'. injection Hb' as <-.
  exists (config_text D). simpl. split.
  - apply file_data_saved.
  - by eapply saved_document_reads_back.
Qed.

(** A document with every kind of value; [-2.5e3] is the float
    [-5497558138880000 * 2^-41]. *)
Definition doc_mixed : string :=
  "{" +:+ q +:+ "keys" +:+ q +:+ ": [1, -2.5e3, true, false, null, "
  +:+ q +:+ "C#" +:+ q +:+ "], " +:+ q +:+ "nested" +:+ q +:+ ": {}}".

Definition val_mixed : pyval :=
  PDict [(codes "keys",
          PList [PInt 1; PFloat (PyFloat.Finite true 5497558138880000 (-41));
                 PBool true; PBool false; PNone; PStr (codes "C#")]);
         (codes "nested", PDict [])].

Lemma C6_round_trip_witness :
  exists data,
    file_data (files (snd (serve sample_env (post_to "/save-config" doc_mixed) empty_dir)))
      config_path = Some data
    /\ parse_body data = Ok val_mixed.
Proof.
  apply (C6_round_trip sample_env (post_to "/save-config" doc_mixed) empty_dir
           (snd (serve sample_env (post_to "/save-config" doc_mixed) empty_dir))
           doc_mixed val_mixed).
  - vm_compute. reflexivity.
  - vm_compute. reflexivity.
  - vm_compute. reflexivity.
  - vm_compute. reflexivity.
Defined.

(** ** C7: saving twice *)

(** C7: when a request produced a successful save, handling the identical
    request again on the resulting files succeeds with the same response and
    leaves the same bytes in the same files. *)
Theorem C7_idempotent env req fs w1 :
  serve env req fs = (Ok tt, w1) ->
  status (wfile w1) = Some 200 ->
  serve env req (files w1) = (Ok tt, w1)
  /\ wfile w1 = json_reply env 200 success_body.
Proof.
  intros H Hs. rewrite serve_outcome in H.
  destruct (outcome_200 _ _ _ _ _ H Hs) as (pd & cfg & Hp & Hr & Hb & Ho & _ & ->).
  split; [|reflexivity].
  rewrite serve_outcome. unfold outcome. cbn [files].
  rewrite Hp, Hr, Hb, can_open_saved, saved_twice. reflexivity.
Qed.

Lemma C7_idempotent_witness :
  serve sample_env (post_to "/save-config" doc_a1)
    (files (snd (serve sample_env (post_to "/save-config" doc_a1) empty_dir)))
  = (Ok tt, snd (serve sample_env (post_to "/save-config" doc_a1) empty_dir))
  /\ wfile (snd (serve sample_env (post_to "/save-config" doc_a1) empty_dir))
     = json_reply sample_env 200 success_body.
Proof.
  apply (C7_idempotent sample_env (post_to "/save-config" doc_a1) empty_dir).
  - vm_compute. reflexivity.
  - vm_compute. reflexivity.
Defined.

(** ** C8: the frame of a request *)

Lemma outcome_frame env req fs :
  let w' := snd (outcome env req fs) in
  files w' = fs
  \/ (can_open fs config_path = true /\ exists data, files w' = saved fs data).
Proof.
  unfold outcome.
  destruct (String.eqb _ _); [|by left].
  destruct (received req); [|by left].
  destruct (parse_body _); [|by left].
  destruct (can_open fs config_path) eqn:Hc; [|by left].
  right. simpl. eauto.
Qed.

(** What the response to a request depends on: the request, the runtime, and
    whether the config file can be opened. *)
Lemma outcome_response env req fs1 fs2 :
  can_open fs1 config_path = can_open fs2 config_path ->
  open_error fs1 config_path = open_error fs2 config_path ->
  fst (outcome env req fs1) = fst (outcome env req fs2)
  /\ wfile (snd (outcome env req fs1)) = wfile (snd (outcome env req fs2)).
Proof.
  intros Hc He. unfold outcome.
  destruct (String.eqb _ _); [|done].
  destruct (received req); [|done].
  destruct (parse_body _); [|done].
  rewrite Hc, He. by destruct (can_open fs2 config_path).
Qed.

(** C8: a request changes nothing but the entry [config.json] of the working
    directory, and calls [open] and [write] on no other path; the handler has
    no state of its own, so the result and the response of a request are the
    same whether or not another request was handled before it. *)
Theorem C8_only_config_file env req fs :
  (forall p, p <> config_path ->
     entries (files (snd (serve env req fs))) !! p = entries fs !! p)
  /\ cwd_writable (files (snd (serve env req fs))) = cwd_writable fs
  /\ Forall (fun op => match op with
                       | OpOpen p => p = config_path
                       | OpWrite p _ => p = config_path
                       end) (fileops (snd (serve env req fs)))
  /\ (forall env' req',
        let before := files (snd (serve env' req' fs)) in
        fst (serve env req before) = fst (serve env req fs)
        /\ wfile (snd (serve env req before)) = wfile (snd (serve env req fs))).
Proof.
  rewrite serve_outcome. repeat split.
  - intros p Hp. destruct (outcome_frame env req fs) as [-> | (_ & data & ->)]; [done|].
    unfold saved. simpl. by rewrite lookup_insert_ne.
  - destruct (outcome_frame env req fs) as [-> | (_ & data & ->)]; done.
  - unfold outcome.
    destruct (String.eqb _ _); [|by constructor].
    destruct (received req); [|by constructor].
    destruct (parse_body _); [|by constructor].
    destruct (can_open fs config_path); repeat constructor.
  - rewrite !serve_outcome.
    destruct (outcome_frame env' req' fs) as [-> | (Hc & data & ->)]; [done|].
    apply outcome_response.
    + by rewrite can_open_saved.
    + unfold open_error, saved. simpl. rewrite lookup_insert_eq.
      unfold can_open in Hc. by destruct (entries fs !! config_path) as [[[|] ?|]|].
  - rewrite !serve_outcome.
    destruct (outcome_frame env' req' fs) as [-> | (Hc & data & ->)]; [done|].
    apply outcome_response.
    + by rewrite can_open_saved.
    + unfold open_error, saved. simpl. rewrite lookup_insert_eq.
      unfold can_open in Hc. by destruct (entries fs !! config_path) as [[[|] ?|]|].
Qed.

(** ** C9: what is written to the file *)


(** ** C10: the empty body *)

(** The body of the error response for an empty document. *)
Definition empty_document_error : string :=
  "{" +:+ q +:+ "error" +:+ q +:+ ": " +:+ q
  +:+ "Expecting value: line 1 column 1 (char 0)" +:+ q +:+ "}".

(** C10: a POST to [/save-config] with [Content-Length: 0] is answered 500
    with the message of the JSON decoder for an empty document, and the config
    file is neither opened nor written. *)
Theorem C10_empty_body env req fs :
  path req = "/save-config" ->
  headers_get (headers req) "Content-Length" = Some "0" ->
  serve env req fs = (Ok tt, World fs (json_reply env 500 empty_document_error) [])
  /\ received req = Ok ""
  /\ parse_body "" = Raise (JSONDecodeError "Expecting value" [] 0)
  /\ str_exn (JSONDecodeError "Expecting value" [] 0)
     = "Expecting value: line 1 column 1 (char 0)".
Proof.
  intros Hp Hh.
  assert (Hr : received req = Ok "").
  { unfold received. rewrite Hh.
    change (py_int (Some "0")) with (Ok 0 : result Z).
    unfold rfile_read. simpl. by destruct (rfile req). }
  repeat split; try done.
  rewrite serve_outcome. unfold outcome. rewrite Hp, Hr. reflexivity.
Qed.

Lemma C10_empty_body_witness :
  serve sample_env (post_to "/save-config" "") blocked_dir
  = (Ok tt, World blocked_dir (json_reply sample_env 500 empty_document_error) [])
  /\ received (post_to "/save-config" "") = Ok ""
  /\ parse_body "" = Raise (JSONDecodeError "Expecting value" [] 0)
  /\ str_exn (JSONDecodeError "Expecting value" [] 0)
     = "Expecting value: line 1 column 1 (char 0)".
Proof.
  apply (C10_empty_body sample_env (post_to "/save-config" "") blocked_dir);
    reflexivity.
Defined.

(** ** Further properties *)

(** The decoder and the encoder know the tokens [NaN], [Infinity] and
    [-Infinity]: a body made of them is saved, and the file holds them. *)
Lemma nonstandard_constants_saved :
  let w' := snd (serve sample_env (post_to "/save-config" "[NaN, Infinity, -Infinity]")
                   empty_dir) in
  status (wfile w') = Some 200
  /\ file_data (files w') config_path
     = Some ("[" +:+ nl +:+ "  NaN," +:+ nl +:+ "  Infinity," +:+ nl
             +:+ "  -Infinity" +:+ nl +:+ "]").
Proof. vm_compute. auto. Qed.

(** When a key occurs twice in an object the last value is kept, at the place
    of the first. *)
Lemma duplicate_keys_collapse :
  parse_body ("{" +:+ q +:+ "a" +:+ q +:+ ": 1, " +:+ q +:+ "b" +:+ q +:+ ": 2, "
              +:+ q +:+ "a" +:+ q +:+ ": 3}")
  = Ok (PDict [(codes "a", PInt 3); (codes "b", PInt 2)]).
Proof. vm_compute. reflexivity. Qed.
(** * Further properties of the program *)

(** ** Reading the request: [int(self.headers['Content-Length'])] and
    [self.rfile.read] *)

Lemma lstrip_digits ds : all_digits ds -> lstrip ds = ds.
Proof.
  destruct ds as [|d ds]; [done|]. intros H. inversion H as [|? ? Hd _]; subst.
  apply is_digit_range in Hd. cbn [lstrip].
  replace (is_space d) with false; [done|]. unfold is_space. lia.
Qed.

Lemma strip_digits ds : all_digits ds -> strip ds = ds.
Proof.
  intros H. unfold strip. rewrite (lstrip_digits ds H).
  rewrite lstrip_digits by (by apply Forall_rev). apply rev_involutive.
Qed.

Lemma int_digits_all ds : forall prev acc,
  all_digits ds -> ds <> [] \/ prev = true ->
  int_digits ds prev acc = Some (fold_left (fun a d => 10 * a + (d - 48)) ds acc).
Proof.
  induction ds as [|d ds IH]; intros prev acc H Hne.
  - destruct Hne as [Hne| ->]; done.
  - inversion H as [|? ? Hd Hds]; subst. cbn [int_digits fold_left]. rewrite Hd.
    apply IH; auto.
Qed.

(** [int] reads a decimal numeral as the number it denotes. *)
Lemma int_literal_digits ds :
  all_digits ds -> ds <> [] -> int_literal ds = Some (digits_val ds).
Proof.
  intros H Hne. unfold int_literal. rewrite strip_digits by done.
  destruct ds as [|d ds]; [done|].
  inversion H as [|? ? Hd _]; subst. pose proof Hd as Hr. apply is_digit_range in Hr.
  replace (d =? 45) with false by lia. replace (d =? 43) with false by lia.
  rewrite int_digits_all; [done|done|by left].
Qed.

Lemma py_int_nat_str n : py_int (Some (nat_str n)) = Ok (Z.of_nat n).
Proof.
  unfold py_int, nat_str.
  rewrite codes_bytes_of by (apply codes_ascii_digits, nat_digits_digits).
  rewrite int_literal_digits;
    [|apply nat_digits_digits|apply nat_digits_nonempty].
  rewrite nat_digits_val by lia. reflexivity.
Qed.


(** A request whose [Content-Length] is the decimal numeral of the length of
    its body delivers the body to the handler, whole: [int] reads back what
    [str] writes, and [read] returns that many bytes. *)
Theorem decimal_content_length_delivers_body req :
  headers_get (headers req) "Content-Length"
  = Some (nat_str (String.length (rfile req))) ->
  received req = Ok (rfile req).
Proof.
  intros H. apply received_whole_body. rewrite H. apply py_int_nat_str.
Qed.

Lemma decimal_content_length_delivers_body_witness :
  received (post_to "/save-config" doc_mixed) = Ok (rfile (post_to "/save-config" doc_mixed)).
Proof.
  apply (decimal_content_length_delivers_body (post_to "/save-config" doc_mixed)).
  reflexivity.
Defined.




(** ** The answers of [do_POST] *)

Lemma open_error_message fs p : str_exn (open_error fs p) <> "".
Proof. unfold open_error. by destruct (entries fs !! p) as [[]|]. Qed.

(** Whatever the request, [do_POST] either raises before anything is written
    to the connection, or writes one complete response: status 200 with the
    success body, status 500 with a body that is the JSON object
    [{"error": m}] for a non-empty message [m], or status 404 with no body.
    The headers are [Server], [Date] and, except for 404, [Content-Type:
    application/json]; no other status and no other header is ever sent. *)
Theorem one_complete_response env req fs :
  match fst (serve env req fs) with
  | Raise _ => wfile (snd (serve env req fs)) = no_response
  | Ok _ =>
      exists code extra content,
        wfile (snd (serve env req fs))
        = Response (Some code)
            ([("Server", version_string env); ("Date", date_time_string env)] ++ extra)
            true content
        /\ ((code = 200 /\ extra = [("Content-Type", "application/json")]
             /\ content = "{" +:+ q +:+ "success" +:+ q +:+ ": true}"
             /\ path req = "/save-config")
            \/ (code = 500 /\ extra = [("Content-Type", "application/json")]
                /\ path req = "/save-config"
                /\ exists e,
                     content = error_body e
                     /\ parse_body content
                        = Ok (PDict [(codes "error", PStr (codes (str_exn e)))])
                     /\ str_exn e <> "")
            \/ (code = 404 /\ extra = [] /\ content = "" /\ path req <> "/save-config"))
  end.
Proof.
  rewrite serve_outcome. unfold outcome.
  destruct (String.eqb_spec (path req) "/save-config") as [Hp|Hp].
  2:{ simpl. exists 404, [], "". split; [done|]. right. right. done. }
  destruct (received req) as [post_data|e]; [|done].
  destruct (parse_body post_data) as [config|e] eqn:Hb.
  - destruct (can_open fs config_path).
    + simpl. exists 200, [("Content-Type", "application/json")], success_body.
      split; [done|]. left. done.
    + simpl. exists 500, [("Content-Type", "application/json")],
        (error_body (open_error fs config_path)).
      split; [done|]. right. left. repeat split; try done.
      exists (open_error fs config_path).
      split; [done|]. split; [apply error_body_parses|apply open_error_message].
  - simpl. exists 500, [("Content-Type", "application/json")], (error_body e).
    split; [done|]. right. left. repeat split; try done.
    exists e. split; [done|]. split; [apply error_body_parses|by eapply parse_body_raises].
Qed.

(** ** The documents of [json.loads] and the text of [json.dump] *)

(** Every document the handler parses from a body is a value of the kind
    [json.loads] builds: no object has a key twice, at any depth; every float
    is a binary64 value in normal form; every string consists of code points
    up to U+10FFFF with no high surrogate directly before a low one. *)
Theorem decoded_documents_valid data v :
  parse_body data = Ok v ->
  pyval_ok v = true
  /\ match v with
     | PDict d => List.NoDup (List.map fst d)
     | PFloat f => PyFloat.canonical f = true
     | PStr s => str_ok s = true
     | _ => True
     end.
Proof.
  intros H. apply parse_body_ok in H. split; [done|].
  destruct v as [| | | | |l|d]; try done.
  cbn [pyval_ok] in H. apply andb_true_iff in H as [H _].
  by apply keys_distinct_NoDup.
Qed.

Lemma decoded_documents_valid_witness :
  pyval_ok (PDict [(codes "a", PInt 3); (codes "b", PInt 2)]) = true
  /\ List.NoDup (List.map fst [(codes "a", PInt 3); (codes "b", PInt 2)]).
Proof.
  apply (decoded_documents_valid
           ("{" +:+ q +:+ "a" +:+ q +:+ ": 1, " +:+ q +:+ "b" +:+ q +:+ ": 2, "
            +:+ q +:+ "a" +:+ q +:+ ": 3}")).
  vm_compute. reflexivity.
Defined.



(** What a save writes is ASCII only ([ensure_ascii]): every character of the
    text is below 128, so the bytes in the file are the characters of the
    text, whatever the encoding of the file. *)
Theorem saved_text_is_ascii data config :
  parse_body data = Ok config ->
  Forall (fun c => 0 <= c < 128) (json_dump_indent2 config)
  /\ codes (config_text config) = json_dump_indent2 config.
Proof.
  intros H. apply parse_body_ok in H.
  pose proof (iterencode_ascii (Some 2%nat) config H 0%nat) as Ha.
  split; [exact Ha|]. unfold config_text. by apply codes_bytes_of.
Qed.

Lemma saved_text_is_ascii_witness :
  Forall (fun c => 0 <= c < 128) (json_dump_indent2 (PList [PStr [233; 128512]]))
  /\ codes (config_text (PList [PStr [233; 128512]]))
     = json_dump_indent2 (PList [PStr [233; 128512]]).
Proof.
  apply (saved_text_is_ascii
           ("[" +:+ q +:+ bytes_of [195; 169; 240; 159; 152; 128] +:+ q +:+ "]")).
  vm_compute. reflexivity.
Defined.

(** A finite float is written by [float.__repr__] as a well-formed JSON number
    that reads back as the very same float. *)
Theorem float_repr_reads_back neg m e :
  PyFloat.canonical (PyFloat.Finite neg m e) = true ->
  lit_wf (PyFloat.repr_lit neg m e)
  /\ PyFloat.of_lit (PyFloat.repr_lit neg m e) = PyFloat.Finite neg m e
  /\ json_loads (floatstr (PyFloat.Finite neg m e)) = Ok (PFloat (PyFloat.Finite neg m e)).
Proof.
  intros H. split; [by apply PyFloatFacts.repr_lit_wf|].
  split; [by apply PyFloatFacts.repr_lit_reads_back|].
  by apply (loads_encoded None 0 (PFloat (PyFloat.Finite neg m e))).
Qed.

Lemma float_repr_reads_back_witness :
  lit_wf (PyFloat.repr_lit false 7205759403792794 (-56))
  /\ PyFloat.of_lit (PyFloat.repr_lit false 7205759403792794 (-56))
     = PyFloat.Finite false 7205759403792794 (-56)
  /\ json_loads (floatstr (PyFloat.Finite false 7205759403792794 (-56)))
     = Ok (PFloat (PyFloat.Finite false 7205759403792794 (-56))).
Proof.
  apply (float_repr_reads_back false 7205759403792794 (-56)).
  vm_compute. reflexivity.
Defined.

(** ** What parsing a body can raise *)












(** [bytes.decode('utf-8')] is strict: the text it returns holds Unicode
    scalar values only (no surrogate, nothing above U+10FFFF); bytes below 128
    decode to themselves. *)
Theorem decode_utf8_strict :
  (forall b text, decode_utf8 b = Ok text -> Forall scalar text)
  /\ (forall l, Forall (fun c => 0 <= c < 128) l -> decode_utf8 (bytes_of l) = Ok l).
Proof.
  split.
  - apply decode_utf8_scalar.
  - intros l H. by apply decode_ascii.
Qed.

(** ** White space and trailing data *)








(** ** The server loop *)

Lemma process_request_post env inherited req fs :
  command req = "POST" ->
  process_request env inherited req fs
  = (wfile (snd (serve env req fs)), files (snd (serve env req fs))).
Proof.
  intros Hc. unfold process_request, handle_one_request, serve. rewrite Hc. simpl.
  by destruct (do_POST env req (World fs no_response [])).
Qed.

(** What one request can do to the files. *)
Lemma process_request_frame env inherited req fs :
  (forall r w, files (snd (inherited r w)) = files w) ->
  snd (process_request env inherited req fs) = fs
  \/ (can_open fs config_path = true
      /\ command req = "POST" /\ path req = "/save-config"
      /\ exists post_data config,
           received req = Ok post_data
           /\ parse_body post_data = Ok config
           /\ snd (process_request env inherited req fs) = saved fs (config_text config)).
Proof.
  intros Hinh.
  destruct (String.eqb_spec (command req) "POST") as [Hc|Hc].
  - rewrite process_request_post by done. cbn [snd].
    rewrite serve_outcome. unfold outcome.
    destruct (String.eqb_spec (path req) "/save-config") as [Hp|Hp]; [|by left].
    destruct (received req) as [post_data|e] eqn:Hr; [|by left].
    destruct (parse_body post_data) as [config|e] eqn:Hb; [|by left].
    destruct (can_open fs config_path) eqn:Ho; [|by left].
    right. repeat split; try done. by exists post_data, config.
  - left. unfold process_request, handle_one_request.
    apply String.eqb_neq in Hc. rewrite Hc.
    destruct (String.eqb (command req) "GET" || String.eqb (command req) "HEAD").
    + specialize (Hinh req (World fs no_response [])).
      by destruct (inherited req (World fs no_response [])).
    + reflexivity.
Qed.

Lemma serve_forever_frame env inherited incoming : forall fs,
  (forall r w, files (snd (inherited r w)) = files w) ->
  snd (serve_forever env inherited incoming fs) = fs
  \/ (can_open fs config_path = true
      /\ exists req post_data config,
           In req incoming
           /\ command req = "POST" /\ path req = "/save-config"
           /\ received req = Ok post_data
           /\ parse_body post_data = Ok config
           /\ snd (serve_forever env inherited incoming fs)
              = saved fs (config_text config)).
Proof.
  induction incoming as [|req more IH]; intros fs Hinh; [by left|].
  cbn [serve_forever].
  pose proof (process_request_frame env inherited req fs Hinh) as Hreq.
  destruct (process_request env inherited req fs) as [answer fs1]. cbn [snd] in Hreq.
  specialize (IH fs1 Hinh).
  destruct (serve_forever env inherited more fs1) as [answers fs2]. cbn [snd] in *.
  destruct Hreq as [-> | (Ho & Hc & Hp & pd & cfg & Hr & Hb & ->)].
  - destruct IH as [-> | (Ho & r & pd & cfg & Hin & Hc & Hp & Hr & Hb & ->)]; [by left|].
    right. split; [done|]. exists r, pd, cfg. repeat split; try done. by right.
  - right. split; [done|].
    destruct IH as [-> | (_ & r & pd' & cfg' & Hin & Hc' & Hp' & Hr' & Hb' & ->)].
    + exists req, pd, cfg. repeat split; try done. by left.
    + exists r, pd', cfg'. rewrite saved_twice. repeat split; try done. by right.
Qed.

(** Whatever requests come in, as long as the script runs the file
    [config.json] is as it was at the start, or it holds the text written for
    the document of one of the POST requests to [/save-config], which reads
    back as that document; no other file is changed.  (The inherited GET and
    HEAD handlers are taken not to write files.) *)
Theorem config_file_invariant env inherited incoming fs :
  (forall r w, files (snd (inherited r w)) = files w) ->
  (snd (snd (main env inherited incoming fs)) = fs
   \/ exists req post_data config,
        In req incoming
        /\ command req = "POST" /\ path req = "/save-config"
        /\ received req = Ok post_data
        /\ parse_body post_data = Ok config
        /\ snd (snd (main env inherited incoming fs)) = saved fs (config_text config)
        /\ parse_body (config_text config) = Ok config)
  /\ (forall p, p <> config_path ->
        entries (snd (snd (main env inherited incoming fs))) !! p = entries fs !! p).
Proof.
  intros Hinh. unfold main. cbn [snd].
  destruct (serve_forever_frame env inherited incoming fs Hinh)
    as [-> | (_ & r & pd & cfg & Hin & Hc & Hp & Hr & Hb & ->)].
  - split; [by left|done].
  - split.
    + right. exists r, pd, cfg. repeat split; try done.
      by eapply saved_document_reads_back.
    + intros p Hne. unfold saved. simpl. by rewrite lookup_insert_ne.
Qed.

Definition sample_requests : list request :=
  [post_to "/save-config" doc_a1; Request "GET" "/config.json" [] "";
   post_to "/save-config" "not json"; Request "POST" "/save-config" [] "{}";
   post_to "/save-config" doc_b2; Request "DELETE" "/config.json" [] ""].

Lemma config_file_invariant_witness :
  (snd (snd (main sample_env (fun _ => ret tt) sample_requests empty_dir)) = empty_dir
   \/ exists req post_data config,
        In req sample_requests
        /\ command req = "POST" /\ path req = "/save-config"
        /\ received req = Ok post_data
        /\ parse_body post_data = Ok config
        /\ snd (snd (main sample_env (fun _ => ret tt) sample_requests empty_dir))
           = saved empty_dir (config_text config)
        /\ parse_body (config_text config) = Ok config)
  /\ (forall p, p <> config_path ->
        entries (snd (snd (main sample_env (fun _ => ret tt) sample_requests empty_dir))) !! p
        = entries empty_dir !! p).
Proof.
  apply (config_file_invariant sample_env (fun _ => ret tt) sample_requests empty_dir).
  reflexivity.
Defined.

Lemma response_after_save env req fs data :
  can_open fs config_path = true ->
  wfile (snd (serve env req (saved fs data))) = wfile (snd (serve env req fs)).
Proof.
  intros Ho. rewrite !serve_outcome. apply outcome_response.
  - by rewrite can_open_saved.
  - unfold open_error, saved. simpl. rewrite lookup_insert_eq.
    unfold can_open in Ho. by destruct (entries fs !! config_path) as [[[|] ?|]|].
Qed.

(** POST requests do not influence each other's answers: in any sequence of
    POST requests each one is answered exactly as it would be if it were the
    first, also after a request that made [do_POST] raise. *)
Theorem posts_answered_independently env inherited incoming : forall fs,
  Forall (fun req => command req = "POST") incoming ->
  fst (serve_forever env inherited incoming fs)
  = List.map (fun req => wfile (snd (serve env req fs))) incoming.
Proof.
  induction incoming as [|req more IH]; intros fs Hall; [done|].
  inversion Hall as [|? ? Hc Hmore]; subst.
  cbn [serve_forever List.map]. rewrite process_request_post by done.
  specialize (IH (files (snd (serve env req fs))) Hmore).
  destruct (serve_forever env inherited more _) as [answers fs2]. cbn [fst] in *.
  f_equal. rewrite IH. apply map_ext. intros r.
  rewrite (serve_outcome env req fs).
  destruct (outcome_frame env req fs) as [-> | (Ho & data & ->)]; [done|].
  by apply response_after_save.
Qed.

Lemma posts_answered_independently_witness :
  fst (serve_forever sample_env (fun _ => ret tt)
         [post_to "/save-config" doc_a1; Request "POST" "/save-config" [] "{}";
          post_to "/other" doc_a1; post_to "/save-config" "not json";
          post_to "/save-config" doc_b2] empty_dir)
  = List.map (fun req => wfile (snd (serve sample_env req empty_dir)))
      [post_to "/save-config" doc_a1; Request "POST" "/save-config" [] "{}";
       post_to "/other" doc_a1; post_to "/save-config" "not json";
       post_to "/save-config" doc_b2].
Proof.
  apply (posts_answered_independently sample_env (fun _ => ret tt)
           [post_to "/save-config" doc_a1; Request "POST" "/save-config" [] "{}";
            post_to "/other" doc_a1; post_to "/save-config" "not json";
            post_to "/save-config" doc_b2] empty_dir).
  repeat constructor.
Defined.

Lemma serve_forever_app env inherited l1 l2 : forall fs,
  snd (serve_forever env inherited (l1 ++ l2) fs)
  = snd (serve_forever env inherited l2 (snd (serve_forever env inherited l1 fs))).
Proof.
  induction l1 as [|req l1 IH]; intros fs; [done|].
  cbn [app serve_forever].
  destruct (process_request env inherited req fs) as [answer fs1].
  specialize (IH fs1).
  destruct (serve_forever env inherited (l1 ++ l2) fs1) as [a1 f1].
  destruct (serve_forever env inherited l1 fs1) as [a2 f2]. exact IH.
Qed.

(** The last save wins: when a POST request is answered 200, the files after
    it are the same whatever requests were handled before it; in particular
    [config.json] holds the text of its document alone. *)
Theorem last_save_wins env inherited incoming req fs :
  (forall r w, files (snd (inherited r w)) = files w) ->
  command req = "POST" ->
  status (wfile (snd (serve env req fs))) = Some 200 ->
  snd (serve_forever env inherited (incoming ++ [req]) fs)
  = files (snd (serve env req fs)).
Proof.
  intros Hinh Hc Hs. rewrite serve_forever_app. cbn [serve_forever].
  rewrite process_request_post by done. cbn [snd].
  destruct (outcome_200 env req fs _ _ (surjective_pairing _)
              ltac:(by rewrite <- serve_outcome))
    as (pd & cfg & Hp & Hr & Hb & Ho & _ & Hw).
  rewrite <- serve_outcome in Hw.
  destruct (serve_forever_frame env inherited incoming fs Hinh)
    as [-> | (_ & r & pd' & cfg' & _ & _ & _ & _ & _ & ->)]; [done|].
  rewrite Hw. cbn [files]. rewrite serve_outcome. unfold outcome.
  rewrite Hp, Hr, Hb, can_open_saved. cbn [snd files]. apply saved_twice.
Qed.

Lemma last_save_wins_witness :
  snd (serve_forever sample_env (fun _ => ret tt)
         ([post_to "/save-config" doc_a1; Request "PUT" "/x" [] ""]
          ++ [post_to "/save-config" doc_b2]) empty_dir)
  = files (snd (serve sample_env (post_to "/save-config" doc_b2) empty_dir)).
Proof.
  apply (last_save_wins sample_env (fun _ => ret tt)
           [post_to "/save-config" doc_a1; Request "PUT" "/x" [] ""]
           (post_to "/save-config" doc_b2) empty_dir).
  - reflexivity.
  - reflexivity.
  - vm_compute. reflexivity.
Defined.
